(** * Dependency / lineage graph engine: a shallow embedding

    The development follows three Python modules:
    - [services/dependency_graph.py]  (class [DependencyGraph]),
    - [services/graph_builder.py]     (class [GraphBuilder]),
    - [generators/generate_graph.py]  (the graph compiler).

    Python dictionaries are [gmap]s, Python sets are [gset]s, Python lists
    are lists, and identifiers are strings.  Code that may raise returns a
    [result]; [while] loops and the recursive traversal take a fuel argument
    and a bound on the fuel that always suffices is proved for each. *)

From Stdlib Require Import ZArith Ascii.
From stdpp Require Import gmap strings list fin_maps fin_sets.

(** ** Outcomes of fallible code *)

Inductive result (A : Type) : Type :=
| Ok (a : A)
| KeyError (key : string)
| OutOfFuel.

Arguments Ok {A} a.
Arguments KeyError {A} key.
Arguments OutOfFuel {A}.

#[global] Instance result_bind : MBind result := λ A B k r,
  match r with
  | Ok a => k a
  | KeyError key => KeyError key
  | OutOfFuel => OutOfFuel
  end.

(** [d[key]] on a record field that may be absent. *)
Definition subscript {A} (key : string) (o : option A) : result A :=
  match o with
  | Some a => Ok a
  | None => KeyError key
  end.

(** The value of a computation known not to fail. *)
Definition from_ok {A} (d : A) (r : result A) : A :=
  match r with Ok a => a | _ => d end.

(** [for x in xs: st = body x st], stopping at the first exception. *)
Fixpoint for_each {A S} (body : A → S → result S) (xs : list A) (st : S)
  : result S :=
  match xs with
  | [] => Ok st
  | x :: xs' => st' ← body x st ; for_each body xs' st'
  end.

(** ** Spec records (JSON objects; an absent key is [None]) *)

Record Relationship := mkRelationship {
  targetEntity : option string
}.

Record Field := mkField {
  field_name : option string;
  field_type : option string;
  field_references : option string
}.

Record Entity := mkEntity {
  entity_id : option string;
  entity_name : option string;
  entity_owner : option string;
  entity_criticality : option string;
  entity_fields : list Field;
  entity_relationships : list Relationship
}.

Module DependencyGraph.

(** *** services/dependency_graph.py *)

Record EntityNode := mkEntityNode {
  id : string;
  name : string;
  dependencies : gset string;
  dependents : gset string
}.

Definition add_dependency (target : string) (n : EntityNode) : EntityNode :=
  mkEntityNode (id n) (name n) ({[target]} ∪ dependencies n) (dependents n).

Definition add_dependent (source : string) (n : EntityNode) : EntityNode :=
  mkEntityNode (id n) (name n) (dependencies n) ({[source]} ∪ dependents n).

(** First pass of [build_from_specs]: one node per entity, later records
    overwrite earlier ones with the same id. *)
Definition create_node (entity : Entity) (nodes : gmap string EntityNode)
  : result (gmap string EntityNode) :=
  eid ← subscript "id" (entity_id entity) ;
  ename ← subscript "name" (entity_name entity) ;
  Ok (<[eid := mkEntityNode eid ename ∅ ∅]> nodes).

(** Second pass, one relationship of one entity. *)
Definition link (eid : string) (rel : Relationship)
    (nodes : gmap string EntityNode) : result (gmap string EntityNode) :=
  target ← subscript "targetEntity" (targetEntity rel) ;
  if decide (eid ∈ dom nodes ∧ target ∈ dom nodes)
  then Ok (alter (add_dependent eid) target
             (alter (add_dependency target) eid nodes))
  else Ok nodes.

Definition link_entity (entity : Entity) (nodes : gmap string EntityNode)
  : result (gmap string EntityNode) :=
  eid ← subscript "id" (entity_id entity) ;
  for_each (link eid) (entity_relationships entity) nodes.

(** [build_from_specs]; [None] stands for a missing [entities.json]. *)
Definition build_from_specs (data : option (list Entity))
  : result (gmap string EntityNode) :=
  match data with
  | None => Ok ∅
  | Some entities =>
      nodes ← for_each create_node entities ∅ ;
      for_each link_entity entities nodes
  end.

(** The worklist loop shared, up to the adjacency field read, by
    [get_dependencies] and [get_dependents].  The Python list [to_visit] is
    kept with its last element first: [pop()] takes the head and [append]
    conses. *)
Fixpoint walk (adj : EntityNode → gset string)
    (nodes : gmap string EntityNode) (fuel : nat)
    (visited : gset string) (to_visit : list string) : result (gset string) :=
  match fuel with
  | O => OutOfFuel
  | S fuel' =>
      match to_visit with
      | [] => Ok visited
      | current :: rest =>
          if decide (current ∈ visited)
          then walk adj nodes fuel' visited rest
          else
            let visited' := {[current]} ∪ visited in
            match nodes !! current with
            | Some node =>
                let pushed :=
                  filter (λ dep, dep ∉ visited') (elements (adj node)) in
                walk adj nodes fuel' visited' (rev pushed ++ rest)
            | None => walk adj nodes fuel' visited' rest
            end
      end
  end.

(** [visited.remove(x)] raises when [x] is absent. *)
Definition set_remove (x : string) (s : gset string) : result (gset string) :=
  if decide (x ∈ s) then Ok (s ∖ {[x]}) else KeyError x.

Definition closure (adj : EntityNode → gset string)
    (nodes : gmap string EntityNode) (fuel : nat) (entity : string)
  : result (gset string) :=
  if decide (entity ∈ dom nodes)
  then visited ← walk adj nodes fuel ∅ [entity] ; set_remove entity visited
  else Ok ∅.

Definition get_dependencies_fuel := closure dependencies.
Definition get_dependents_fuel := closure dependents.

(** Every id the loop can ever put on the worklist. *)
Definition universe (adj : EntityNode → gset string)
    (nodes : gmap string EntityNode) : gset string :=
  dom nodes ∪ ⋃ (adj <$> (map_to_list nodes).*2).

(** The measure that decreases at every iteration of [walk]. *)
Definition walk_measure (adj : EntityNode → gset string)
    (nodes : gmap string EntityNode)
    (visited : gset string) (to_visit : list string) : nat :=
  size (universe adj nodes ∖ visited) * (size (universe adj nodes) + 1)
  + length to_visit.

Definition walk_fuel (adj : EntityNode → gset string)
    (nodes : gmap string EntityNode) : nat :=
  let u := size (universe adj nodes) in u * (u + 1) + 2.

Definition get_dependencies (nodes : gmap string EntityNode) (entity : string)
  : gset string :=
  from_ok ∅ (get_dependencies_fuel nodes (walk_fuel dependencies nodes) entity).

Definition get_dependents (nodes : gmap string EntityNode) (entity : string)
  : gset string :=
  from_ok ∅ (get_dependents_fuel nodes (walk_fuel dependents nodes) entity).

Definition get_impact (nodes : gmap string EntityNode) (entity : string)
  : gset string :=
  {[entity]} ∪ get_dependents nodes entity.

Definition can_parallelize (nodes : gmap string EntityNode)
    (change_a change_b : string) : bool :=
  bool_decide (size (get_impact nodes change_a ∩ get_impact nodes change_b) = 0).

Definition analyze_change_risk (nodes : gmap string EntityNode)
    (entity : string) : string :=
  if decide (entity ∈ dom nodes) then
    let impact_size := size (get_impact nodes entity) in
    if decide (impact_size = 1)%nat then "low"
    else if decide (impact_size ≤ 3)%nat then "medium"
    else "high"
  else "unknown".

(** [walk] with a log of the nodes it expands (those it adds to
    [visited]), oldest first.  The log is a proof device: erasing it gives
    [walk] back ([walk_log_erase]). *)
Fixpoint walk_log (adj : EntityNode → gset string)
    (nodes : gmap string EntityNode) (fuel : nat)
    (visited : gset string) (log to_visit : list string)
  : result (gset string * list string) :=
  match fuel with
  | O => OutOfFuel
  | S fuel' =>
      match to_visit with
      | [] => Ok (visited, log)
      | current :: rest =>
          if decide (current ∈ visited)
          then walk_log adj nodes fuel' visited log rest
          else
            let visited' := {[current]} ∪ visited in
            match nodes !! current with
            | Some node =>
                let pushed :=
                  filter (λ dep, dep ∉ visited') (elements (adj node)) in
                walk_log adj nodes fuel' visited' (log ++ [current])
                  (rev pushed ++ rest)
            | None =>
                walk_log adj nodes fuel' visited' (log ++ [current]) rest
            end
      end
  end.

(** [get_change_order]: the two dictionaries are built first. *)
Definition init_in_degree (entities : list string) : gmap string Z :=
  foldl (λ m e, <[e := 0%Z]> m) ∅ entities.

Definition init_graph (entities : list string) : gmap string (list string) :=
  foldl (λ m e, <[e := []]> m) ∅ entities.

Definition count_edge (entities : list string) (entity dep : string)
    (st : gmap string (list string) * gmap string Z)
  : result (gmap string (list string) * gmap string Z) :=
  if decide (dep ∈ entities) then
    out ← subscript dep (st.1 !! dep) ;
    deg ← subscript entity (st.2 !! entity) ;
    Ok (<[dep := out ++ [entity]]> st.1, <[entity := (deg + 1)%Z]> st.2)
  else Ok st.

Definition count_entity (nodes : gmap string EntityNode)
    (entities : list string) (entity : string)
    (st : gmap string (list string) * gmap string Z)
  : result (gmap string (list string) * gmap string Z) :=
  match nodes !! entity with
  | Some node =>
      for_each (count_edge entities entity) (elements (dependencies node)) st
  | None => Ok st
  end.

(** The body of [for dependent in graph.get(current, [])]. *)
Definition release (dependent : string) (st : gmap string Z * list string)
  : result (gmap string Z * list string) :=
  deg ← subscript dependent (st.1 !! dependent) ;
  let deg' := (deg - 1)%Z in
  Ok (<[dependent := deg']> st.1,
      if decide (deg' = 0%Z) then st.2 ++ [dependent] else st.2).

(** [while queue: ...]; the state is [in_degree], [queue], [result]. *)
Fixpoint kahn (graph : gmap string (list string)) (fuel : nat)
    (in_degree : gmap string Z) (queue output : list string)
  : result (list string) :=
  match fuel with
  | O => OutOfFuel
  | S fuel' =>
      match queue with
      | [] => Ok output
      | current :: rest =>
          st ← for_each release (default [] (graph !! current))
                 (in_degree, rest) ;
          kahn graph fuel' st.1 st.2 (output ++ [current])
      end
  end.

Definition get_change_order_fuel (nodes : gmap string EntityNode)
    (fuel : nat) (entities : list string) : result (list string) :=
  st ← for_each (count_entity nodes entities) entities
         (init_graph entities, init_in_degree entities) ;
  queue ← for_each (λ e q, deg ← subscript e (st.2 !! e) ;
                           Ok (if decide (deg = 0%Z) then q ++ [e] else q))
            entities [] ;
  output ← kahn st.1 fuel st.2 queue [] ;
  if decide (length output ≠ length entities) then Ok entities else Ok output.

Definition change_order_fuel (entities : list string) : nat :=
  2 * length entities + 1.

Definition get_change_order (nodes : gmap string EntityNode)
    (entities : list string) : list string :=
  from_ok entities
    (get_change_order_fuel nodes (change_order_fuel entities) entities).

(** The quantity that decreases at every iteration of [kahn]: the length
    of the queue plus the number of ids whose in-degree is still positive. *)
Definition pos_count (in_degree : gmap string Z) : nat :=
  size (filter (λ kv : string * Z, (0 < kv.2)%Z) in_degree).

(** Both dictionaries of [get_change_order] have the ids as their keys, and
    the lists in [graph] hold ids only. *)
Definition well_keyed (entities : list string)
    (st : gmap string (list string) * gmap string Z) : Prop :=
  dom st.1 = list_to_set entities
  ∧ dom st.2 = list_to_set entities
  ∧ ∀ d l x, st.1 !! d = Some l → x ∈ l → x ∈ entities.

(** [e] depends on [d] in the subgraph induced on [ids]: both are in
    [ids] and [d] is a declared dependency of [e]. *)
Definition depends_in (nodes : gmap string EntityNode) (ids : list string)
    (e d : string) : Prop :=
  e ∈ ids ∧ d ∈ ids
  ∧ ∃ node, nodes !! e = Some node ∧ d ∈ dependencies node.

Definition acyclic_in (nodes : gmap string EntityNode) (ids : list string)
  : Prop :=
  ∀ e, ¬ tc (depends_in nodes ids) e e.

(** The dependencies of [e] that are among [ids], and the ids that have
    [d] among theirs, the latter in the order of [ids]. *)
Definition in_set_dependencies (nodes : gmap string EntityNode)
    (ids : list string) (e : string) : list string :=
  match nodes !! e with
  | Some node => filter (λ d, d ∈ ids) (elements (dependencies node))
  | None => []
  end.

Definition in_set_dependents (nodes : gmap string EntityNode)
    (ids : list string) (d : string) : list string :=
  filter (λ e, d ∈ in_set_dependencies nodes ids e) ids.

(** The in-set dependencies of [e] that are not in [output] yet. *)
Definition remaining (nodes : gmap string EntityNode) (ids : list string)
    (output : list string) (e : string) : list string :=
  filter (λ d, d ∉ output) (in_set_dependencies nodes ids e).

(** What the two dictionaries hold once the ids in [seen] have been
    counted: [graph[d]] lists the ids of [seen] that depend on [d], and
    [in_degree[e]] is the number of in-set dependencies of [e] if [e] is in
    [seen], and 0 otherwise. *)
Definition counted (nodes : gmap string EntityNode) (ids seen : list string)
    (st : gmap string (list string) * gmap string Z) : Prop :=
  (∀ d, d ∈ ids →
     st.1 !! d
     = Some (filter (λ e, d ∈ in_set_dependencies nodes ids e) seen))
  ∧ (∀ e, e ∈ ids →
       st.2 !! e
       = Some (if decide (e ∈ seen)
               then Z.of_nat (length (in_set_dependencies nodes ids e))
               else 0%Z)).

(** [d] stands before [e] in the list [l]. *)
Definition precedes (l : list string) (d e : string) : Prop :=
  ∃ i j, l !! j = Some d ∧ l !! i = Some e ∧ j < i.

(** The index at which [x] first occurs in [l] ([length l] if it does
    not). *)
Fixpoint position (l : list string) (x : string) : nat :=
  match l with
  | [] => 0
  | y :: l' => if decide (y = x) then 0 else S (position l' x)
  end.

(** The number of ids that are out when [e] joins the queue: 0 if [e] has
    no in-set dependency, and otherwise one more than the index in [output]
    of the last of them to come out. *)
Definition ready_time (nodes : gmap string EntityNode) (ids : list string)
    (output : list string) (e : string) : nat :=
  max_list ((λ d, S (position output d)) <$> in_set_dependencies nodes ids e).

(** First in, first out: [e] joins the queue before [e'] does, or with it
    and earlier in the input. *)
Definition fifo_before (nodes : gmap string EntityNode) (ids : list string)
    (output : list string) (e e' : string) : Prop :=
  ready_time nodes ids output e < ready_time nodes ids output e'
  ∨ (ready_time nodes ids output e = ready_time nodes ids output e'
     ∧ position ids e < position ids e').

(** What every iteration of [kahn] keeps true, for ids without repeats;
    [queue0] is the queue the loop started from. *)
Definition kahn_invariant (nodes : gmap string EntityNode)
    (ids queue0 : list string) (in_degree : gmap string Z)
    (queue output : list string) : Prop :=
  NoDup (output ++ queue)
  ∧ (∀ x, x ∈ output ++ queue → x ∈ ids)
  ∧ (∀ e, e ∈ ids →
       in_degree !! e
       = Some (Z.of_nat (length (remaining nodes ids output e))))
  ∧ (∀ e, e ∈ ids →
       e ∈ output ++ queue ↔ remaining nodes ids output e = [])
  ∧ (∀ e d, e ∈ output → d ∈ in_set_dependencies nodes ids e →
       precedes output d e)
  ∧ queue0 `prefix_of` output ++ queue
  ∧ (∀ e, e ∈ output ++ queue →
       ready_time nodes ids output e ≤ length output)
  ∧ (∀ i j e e', (output ++ queue) !! i = Some e →
       (output ++ queue) !! j = Some e' → i < j →
       fifo_before nodes ids output e e').

End DependencyGraph.

Module GraphBuilder.

(** *** services/graph_builder.py *)

Record Edge := mkEdge {
  source : string;
  target : string;
  relation : string;
  semantics : string
}.

(** The body of [for edge in graph.get('edges', [])], with the recursive
    call abstracted as [rec]. *)
Definition follow (rec : string → gset string * list string
                         → result (gset string * list string))
    (direction current_id : string) (edge : Edge)
    (st : gset string * list string)
  : result (gset string * list string) :=
  if decide (direction = "upstream" ∧ target edge = current_id)
  then rec (source edge) (st.1, st.2 ++ [source edge])
  else if decide (direction = "downstream" ∧ source edge = current_id)
  then rec (target edge) (st.1, st.2 ++ [target edge])
  else Ok st.

(** The nested function [traverse]; [visited] and [result] are the two
    variables it shares with [get_lineage]. *)
Fixpoint traverse (edges : list Edge) (direction : string) (fuel : nat)
    (current_id : string) (st : gset string * list string)
  : result (gset string * list string) :=
  match fuel with
  | O => OutOfFuel
  | S fuel' =>
      if decide (current_id ∈ st.1) then Ok st
      else
        for_each (follow (traverse edges direction fuel') direction current_id)
          edges ({[current_id]} ∪ st.1, st.2)
  end.

Definition get_lineage_fuel (edges : list Edge) (fuel : nat)
    (node_id direction : string) : result (list string) :=
  st ← traverse edges direction fuel node_id (∅, []) ;
  Ok st.2.

Definition endpoints (edges : list Edge) : gset string :=
  list_to_set (source <$> edges) ∪ list_to_set (target <$> edges).

Definition lineage_fuel (edges : list Edge) : nat :=
  size (endpoints edges) + 2.

Definition get_lineage (edges : list Edge) (node_id direction : string)
  : list string :=
  from_ok [] (get_lineage_fuel edges (lineage_fuel edges) node_id direction).

(** [traverse] with a third component: the ids in the order in which
    [visited.add] received them.  Erasing it gives [traverse] back
    ([traverse_log_erase]). *)
Definition follow_log (rec : string → gset string * list string * list string
                             → result (gset string * list string * list string))
    (direction current_id : string) (edge : Edge)
    (st : gset string * list string * list string)
  : result (gset string * list string * list string) :=
  if decide (direction = "upstream" ∧ target edge = current_id)
  then rec (source edge) (st.1.1, st.1.2 ++ [source edge], st.2)
  else if decide (direction = "downstream" ∧ source edge = current_id)
  then rec (target edge) (st.1.1, st.1.2 ++ [target edge], st.2)
  else Ok st.

Fixpoint traverse_log (edges : list Edge) (direction : string) (fuel : nat)
    (current_id : string) (st : gset string * list string * list string)
  : result (gset string * list string * list string) :=
  match fuel with
  | O => OutOfFuel
  | S fuel' =>
      if decide (current_id ∈ st.1.1) then Ok st
      else
        for_each
          (follow_log (traverse_log edges direction fuel') direction current_id)
          edges ({[current_id]} ∪ st.1.1, st.1.2, st.2 ++ [current_id])
  end.

(** The order in which a call of [get_lineage] visits nodes, the start
    first. *)
Definition visit_order (edges : list Edge) (node_id direction : string)
  : list string :=
  from_ok []
    (st ← traverse_log edges direction (lineage_fuel edges) node_id (∅, [], []) ;
     Ok st.2).

(** One edge followed in the given direction: from the node an edge is
    matched at to the node it contributes. *)
Definition step (edges : list Edge) (direction : string) (a b : string)
  : Prop :=
  ∃ edge, edge ∈ edges
    ∧ ((direction = "upstream" ∧ target edge = a ∧ source edge = b)
       ∨ (direction = "downstream" ∧ source edge = a ∧ target edge = b)).

(** The ids one visit of [current_id] appends to [result]: the far ends of
    the edges that match there, in edge order. *)
Definition far_end (direction current_id : string) (edge : Edge)
  : option string :=
  if decide (direction = "upstream" ∧ target edge = current_id)
  then Some (source edge)
  else if decide (direction = "downstream" ∧ source edge = current_id)
  then Some (target edge)
  else None.

Definition neighbours (edges : list Edge) (direction current_id : string)
  : list string :=
  omap (far_end direction current_id) edges.

(** The entries of [l] that are not in [seen], each kept where it first
    occurs. *)
Fixpoint first_occurrences (seen : gset string) (l : list string)
  : list string :=
  match l with
  | [] => []
  | x :: l' =>
      if decide (x ∈ seen) then first_occurrences seen l'
      else x :: first_occurrences ({[x]} ∪ seen) l'
  end.

(** What one call of [traverse_log] adds to its state, in terms of the ids
    [r] it appends to [result] and the ids [o] it visits: every edge step
    from a newly visited id leads to an id in [r] that is visited by the
    end of the call. *)
Definition extends (edges : list Edge) (direction : string)
    (V : gset string) (R O r o : list string)
    (st' : gset string * list string * list string) : Prop :=
  st' = (V ∪ list_to_set o, R ++ r, O ++ o)
  ∧ (∀ a b, a ∈ o → step edges direction a b →
       b ∈ r ∧ b ∈ V ∪ list_to_set o).

End GraphBuilder.

Module GraphCompiler.

(** *** generators/generate_graph.py *)

Record Algorithm := mkAlgorithm {
  algorithm_id : option string;
  algorithm_name : option string;
  algorithm_owner : option string;
  algorithm_criticality : option string
}.

Record Workflow := mkWorkflow {
  workflow_id : option string;
  workflow_name : option string;
  workflow_owner : option string;
  workflow_criticality : option string;
  workflow_sla : option string;
  workflow_produces : list string;
  workflow_consumes : list string
}.

(** [specs.get(kind, {}).get(kind, [])] for the three kinds read. *)
Record Specs := mkSpecs {
  entities : list Entity;
  algorithms : list Algorithm;
  workflows : list Workflow
}.

Inductive NodeType := ASSET | ALGORITHM | WORKFLOW | SKILL.

Record Metadata := mkMetadata {
  owner : string;
  business_criticality : string;
  fields_count : option nat;
  sla : option string
}.

Record Node := mkNode {
  node_id : string;
  node_type : NodeType;
  label : string;
  metadata : Metadata;
  status_source : option string
}.

Inductive Relation := DEPENDS_ON | PRODUCES | CONSUMES.

Record Edge := mkEdge {
  source : string;
  target : string;
  relation : Relation;
  semantics : string
}.

Record Graph := mkGraph {
  version : string;
  generated_at : string;
  nodes : list Node;
  edges : list Edge
}.

(** [str.lower()] on the ASCII range. *)
Definition lower_ascii (c : ascii) : ascii :=
  let n := nat_of_ascii c in
  if decide (65 ≤ n ∧ n ≤ 90)%nat then ascii_of_nat (n + 32) else c.

Fixpoint lower (s : string) : string :=
  match s with
  | EmptyString => EmptyString
  | String c s' => String (lower_ascii c) (lower s')
  end.

Definition entity_to_node (entity : Entity) : result Node :=
  name ← subscript "name" (entity_name entity) ;
  let name_lower := lower name in
  Ok (mkNode ("asset.entity." +:+ name_lower) ASSET name
        (mkMetadata (default "System" (entity_owner entity))
                    (default "MEDIUM" (entity_criticality entity))
                    (Some (length (entity_fields entity)))
                    None)
        (Some ("hook.entity." +:+ name_lower +:+ "_status"))).

Definition algorithm_to_node (algorithm : Algorithm) : Node :=
  let algo_id := default (default "unknown" (algorithm_name algorithm))
                         (algorithm_id algorithm) in
  let name := default algo_id (algorithm_name algorithm) in
  mkNode ("algo.compute." +:+ algo_id) ALGORITHM name
    (mkMetadata (default "System" (algorithm_owner algorithm))
                (default "MEDIUM" (algorithm_criticality algorithm))
                None None)
    None.

Definition workflow_to_node (workflow : Workflow) : Node :=
  let wf_id := default (default "unknown" (workflow_name workflow))
                       (workflow_id workflow) in
  let name := default wf_id (workflow_name workflow) in
  mkNode ("wf.process." +:+ wf_id) WORKFLOW name
    (mkMetadata (default "System" (workflow_owner workflow))
                (default "HIGH" (workflow_criticality workflow))
                None
                (Some (default "None" (workflow_sla workflow))))
    None.

(** [field.get('type') == 'uuid' and field.get('references')]: the second
    conjunct is the truthiness of a string. *)
Definition is_reference (field : Field) : bool :=
  bool_decide (field_type field = Some "uuid")
  && match field_references field with
     | Some r => negb (bool_decide (r = ""))
     | None => false
     end.

Definition field_edge (node_ids : gset string) (entity_id : string)
    (field : Field) (edges : list Edge) : result (list Edge) :=
  if is_reference field then
    references ← subscript "references" (field_references field) ;
    let ref_entity := lower references in
    let ref_id := "asset.entity." +:+ ref_entity in
    if decide (ref_id ∈ node_ids) then
      fname ← subscript "name" (field_name field) ;
      Ok (edges ++ [mkEdge entity_id ref_id DEPENDS_ON
                      (fname +:+ " references " +:+ ref_entity)])
    else Ok edges
  else Ok edges.

Definition entity_edges (node_ids : gset string) (entity : Entity)
    (edges : list Edge) : result (list Edge) :=
  name ← subscript "name" (entity_name entity) ;
  let entity_id := "asset.entity." +:+ lower name in
  for_each (field_edge node_ids entity_id) (entity_fields entity) edges.

Definition flow_edge (node_ids : gset string) (wf_id : string)
    (rel : Relation) (verb : string) (item : string) (edges : list Edge)
  : result (list Edge) :=
  let entity_id := "asset.entity." +:+ lower item in
  if decide (entity_id ∈ node_ids) then
    Ok (edges ++ [mkEdge wf_id entity_id rel
                    ("Workflow " +:+ verb +:+ " " +:+ item)])
  else Ok edges.

Definition workflow_edges (node_ids : gset string) (workflow : Workflow)
    (edges : list Edge) : result (list Edge) :=
  let wf_id := "wf.process." +:+
     default (default "unknown" (workflow_name workflow))
             (workflow_id workflow) in
  edges ← for_each (flow_edge node_ids wf_id PRODUCES "produces")
            (workflow_produces workflow) edges ;
  for_each (flow_edge node_ids wf_id CONSUMES "consumes")
    (workflow_consumes workflow) edges.

Definition build_edges (specs : Specs) (nodes : list Node)
  : result (list Edge) :=
  let node_ids : gset string := list_to_set (node_id <$> nodes) in
  edges ← for_each (entity_edges node_ids) (entities specs) [] ;
  for_each (workflow_edges node_ids) (workflows specs) edges.

(** [nodes.append(entity_to_node(entity))] *)
Definition add_entity_node (entity : Entity) (nodes : list Node)
  : result (list Node) :=
  node ← entity_to_node entity ; Ok (nodes ++ [node]).

(** Every edge joins two of the given ids. *)
Definition closed_edges (node_ids : gset string) (edges : list Edge) : Prop :=
  ∀ edge, edge ∈ edges → source edge ∈ node_ids ∧ target edge ∈ node_ids.

(** [generate_graph]: the first component is the document written to
    [graph.json], the second the list of paths handed back to the caller.
    [now] is the timestamp read from the clock. *)
Definition generate_graph (specs : Specs) (output_dir now : string)
  : result (Graph * list string) :=
  nodes ← for_each add_entity_node (entities specs) [] ;
  let nodes := nodes ++ (algorithm_to_node <$> algorithms specs) in
  let nodes := nodes ++ (workflow_to_node <$> workflows specs) in
  edges ← build_edges specs nodes ;
  Ok (mkGraph "2.0" (now +:+ "Z") nodes edges,
      [output_dir +:+ "/data/graph.json"]).

End GraphCompiler.

Module DependencyQueries.
Import DependencyGraph.

(** *** services/dependency_graph.py, the remaining queries *)

(** One step of the relation a closure follows: [b] is in the adjacency
    set ([dependencies] or [dependents]) of the node stored under [a]. *)
Definition adjacent (adj : EntityNode → gset string)
    (nodes : gmap string EntityNode) (a b : string) : Prop :=
  ∃ node, nodes !! a = Some node ∧ b ∈ adj node.

(** [find_conflicts]: [if overlap:] is the truth value of a set. *)
Definition find_conflicts (nodes : gmap string EntityNode)
    (entity : string) (in_flight_entities : list string) : list string :=
  let impact := get_impact nodes entity in
  foldl (λ conflicts in_flight,
           let in_flight_impact := get_impact nodes in_flight in
           let overlap := impact ∩ in_flight_impact in
           if decide (overlap ≠ ∅) then conflicts ++ [in_flight]
           else conflicts)
        [] in_flight_entities.

(** The dictionary [get_entity_info] returns; [list(s)] of a set is
    [elements s]. *)
Record EntityInfo := mkEntityInfo {
  info_id : string;
  info_name : string;
  depends_on : list string;
  depended_by : list string;
  all_dependencies : list string;
  all_dependents : list string;
  total_impact : nat
}.

Definition get_entity_info (nodes : gmap string EntityNode)
    (entity : string) : option EntityInfo :=
  match nodes !! entity with
  | None => None
  | Some node =>
      Some (mkEntityInfo (id node) (name node)
              (elements (dependencies node))
              (elements (dependents node))
              (elements (get_dependencies nodes entity))
              (elements (get_dependents nodes entity))
              (size (get_impact nodes entity)))
  end.

(** The index keeps both directions of every relationship, among known
    ids only, and files every node under its own id. *)
Definition mirrored (nodes : gmap string EntityNode) : Prop :=
  (∀ e node, nodes !! e = Some node → id node = e)
  ∧ (∀ e d, adjacent dependencies nodes e d ↔ adjacent dependents nodes d e)
  ∧ (∀ e d, adjacent dependencies nodes e d → d ∈ dom nodes).

End DependencyQueries.

Module SpecShape.

(** The keys [build_from_specs] subscripts: an entity record it can read
    has [id] and [name], and each of its relationships has
    [targetEntity]. *)
Definition readable (entity : Entity) : Prop :=
  is_Some (entity_id entity) ∧ is_Some (entity_name entity)
  ∧ Forall (λ rel, is_Some (targetEntity rel)) (entity_relationships entity).

End SpecShape.

Module GraphQueries.
Import GraphBuilder.

(** *** services/graph_builder.py, the remaining queries *)

(** A node of the persisted document, with the keys the queries read. *)
Record Node := mkNode {
  node_id : string;
  node_type : string;
  label : string
}.

Record Document := mkDocument {
  version : string;
  nodes : list Node;
  edges : list Edge
}.

(** [load]: [file] is the document at [graph_path], if the file exists, and
    [cache] the field [_graph].  The result is the document returned and
    the new value of [_graph]. *)
Definition load (file : option Document) (cache : option Document)
  : Document * option Document :=
  match cache with
  | Some graph => (graph, Some graph)
  | None =>
      let graph := match file with
                   | Some document => document
                   | None => mkDocument "2.0" [] []
                   end in
      (graph, Some graph)
  end.

Fixpoint get_node (nodes : list Node) (id : string) : option Node :=
  match nodes with
  | [] => None
  | node :: rest =>
      if decide (node_id node = id) then Some node else get_node rest id
  end.

Definition get_nodes_by_type (nodes : list Node) (type : string)
  : list Node :=
  filter (λ n, node_type n = type) nodes.

(** [get_edges_for_node]: the pair is ([incoming], [outgoing]). *)
Definition get_edges_for_node (edges : list Edge) (id : string)
  : list Edge * list Edge :=
  foldl (λ '(incoming, outgoing) edge,
           let outgoing := if decide (source edge = id)
                           then outgoing ++ [edge] else outgoing in
           let incoming := if decide (target edge = id)
                           then incoming ++ [edge] else incoming in
           (incoming, outgoing))
        ([], []) edges.

(** [q in s] on strings. *)
Fixpoint starts_with (q s : string) : bool :=
  match q, s with
  | EmptyString, _ => true
  | String a q', String b s' => bool_decide (a = b) && starts_with q' s'
  | String _ _, EmptyString => false
  end.

Fixpoint contains (q s : string) : bool :=
  starts_with q s
  || match s with
     | EmptyString => false
     | String _ s' => contains q s'
     end.

Definition search_nodes (nodes : list Node) (query : string) : list Node :=
  let query_lower := GraphCompiler.lower query in
  filter (λ n, contains query_lower (GraphCompiler.lower (node_id n)) = true
               ∨ contains query_lower (GraphCompiler.lower (label n)) = true)
         nodes.

(** [counts[key] = counts.get(key, 0) + 1] *)
Definition count_key (counts : gmap string nat) (key : string)
  : gmap string nat :=
  <[key := default 0 (counts !! key) + 1]> counts.

Record Stats := mkStats {
  total_nodes : nat;
  total_edges : nat;
  nodes_by_type : gmap string nat;
  edges_by_relation : gmap string nat
}.

Definition get_stats (graph : Document) : Stats :=
  mkStats (length (nodes graph)) (length (edges graph))
    (foldl (λ counts node, count_key counts (node_type node)) ∅ (nodes graph))
    (foldl (λ counts edge, count_key counts (relation edge)) ∅ (edges graph)).

(** The sum of the counts in a dictionary. *)
Definition total (counts : gmap string nat) : nat :=
  map_fold (λ _ n acc, n + acc) 0 counts.

(** An edge read backwards. *)
Definition flip (edge : Edge) : Edge :=
  mkEdge (target edge) (source edge) (relation edge) (semantics edge).

End GraphQueries.

Module CompiledGraph.
Import GraphCompiler.

(** *** generators/generate_graph.py, what a compiled document holds *)







(** A structural-reference edge and a workflow data-flow edge. *)
Definition reference_edge (edge : Edge) : Prop :=
  relation edge = DEPENDS_ON
  ∧ (∃ a, source edge = "asset.entity." +:+ a)
  ∧ (∃ b, target edge = "asset.entity." +:+ b).

Definition flow_edge_shape (edge : Edge) : Prop :=
  (relation edge = PRODUCES ∨ relation edge = CONSUMES)
  ∧ (∃ a, source edge = "wf.process." +:+ a)
  ∧ (∃ b, target edge = "asset.entity." +:+ b).

End CompiledGraph.

Module Examples.
Import DependencyGraph.

(** An entity record carrying an id, a name and relationships. *)
Definition entity (i : string) (targets : list string) : Entity :=
  mkEntity (Some i) (Some i) None None []
    ((λ t, mkRelationship (Some t)) <$> targets).

Definition index_of (entities : list Entity) : gmap string EntityNode :=
  from_ok ∅ (build_from_specs (Some entities)).

(** [order] depends on [customer]. *)
Definition order_customer : list Entity :=
  [entity "order" ["customer"]; entity "customer" []].

(** A three-cycle A → B → C → A. *)
Definition abc_cycle : list Entity :=
  [entity "A" ["B"]; entity "B" ["C"]; entity "C" ["A"]].

(** [b] depends on [a]. *)
Definition a_then_b : list Entity :=
  [entity "a" []; entity "b" ["a"]].

(** A chain of four: [d] depends on [c], [c] on [b], [b] on [a]. *)
Definition chain4 : list Entity :=
  [entity "a" []; entity "b" ["a"]; entity "c" ["b"]; entity "d" ["c"]].

(** Persisted graphs for the lineage queries. *)
Definition edge (a b : string) : GraphBuilder.Edge :=
  GraphBuilder.mkEdge a b "DEPENDS_ON" "".


Definition diamond : list GraphBuilder.Edge :=
  [edge "Y" "X"; edge "Z" "X"; edge "Z" "Y"].

Definition two_cycle : list GraphBuilder.Edge :=
  [edge "Y" "X"; edge "X" "Y"].

(** Specs for the graph compiler: [Order] refers to [Customer] and to an
    entity that does not exist; one workflow produces and consumes. *)
Definition shop_specs : GraphCompiler.Specs :=
  GraphCompiler.mkSpecs
    [mkEntity None (Some "Order") None None
       [mkField (Some "customer_id") (Some "uuid") (Some "Customer");
        mkField (Some "ghost_id") (Some "uuid") (Some "Ghost")] [];
     mkEntity None (Some "Customer") None None [] []]
    [GraphCompiler.mkAlgorithm (Some "score") None None None]
    [GraphCompiler.mkWorkflow (Some "checkout") None None None None
       ["Order"; "Invoice"] ["customer"]].



End Examples.

(** * Properties *)

Ltac tuple_eq := repeat match goal with |- (_, _) = (_, _) => f_equal end.


Section result_facts.
Context {A S : Type}.

Lemma for_each_app (body : A → S → result S) xs ys st :
  for_each body (xs ++ ys) st = (st' ← for_each body xs st ; for_each body ys st').
Proof.
  revert st. induction xs as [|x xs IH]; intros st; simpl; [done|].
  destruct (body x st); simpl; auto.
Qed.

(** An invariant kept by every iteration holds after the loop. *)
Lemma for_each_invariant (P : S → Prop) (body : A → S → result S) xs :
  (∀ x st st', x ∈ xs → P st → body x st = Ok st' → P st') →
  ∀ st st', P st → for_each body xs st = Ok st' → P st'.
Proof.
  induction xs as [|x xs IH]; intros Hbody st st' HP Hrun; simpl in Hrun.
  - by inversion Hrun; subst.
  - destruct (body x st) as [st1| |] eqn:Hx; simpl in Hrun; try done.
    eapply IH; [|eapply Hbody; [left|exact HP|exact Hx]|exact Hrun].
    intros y s1 s2 Hy. apply Hbody. by right.
Qed.

(** A body that cannot fail gives a loop that cannot fail. *)
Lemma for_each_total (P : S → Prop) (body : A → S → result S) xs :
  (∀ x st, x ∈ xs → P st → ∃ st', body x st = Ok st' ∧ P st') →
  ∀ st, P st → ∃ st', for_each body xs st = Ok st' ∧ P st'.
Proof.
  induction xs as [|x xs IH]; intros Hbody st HP; simpl.
  - eauto.
  - destruct (Hbody x st) as (st1 & -> & HP1); [left|done|]. simpl.
    apply IH; [|done]. intros y s1 Hy. apply Hbody. by right.
Qed.
(** Raising the fuel of a body keeps the result of the loop. *)
Lemma for_each_mono (body body' : A → S → result S) xs :
  (∀ x st st', x ∈ xs → body x st = Ok st' → body' x st = Ok st') →
  ∀ st st', for_each body xs st = Ok st' → for_each body' xs st = Ok st'.
Proof.
  induction xs as [|x xs IH]; intros Hbody st st' Hrun; simpl in *; [done|].
  destruct (body x st) as [st1| |] eqn:Hx; simpl in Hrun; try done.
  rewrite (Hbody x st st1 ltac:(left) Hx). simpl.
  apply IH; [|done]. intros y s1 s2 Hy. apply Hbody. by right.
Qed.
End result_facts.

(** A loop over a state with ghost components, and the loop over the
    state without them. *)
Lemma for_each_erase {A S T} (proj : T → S)
    (body : A → S → result S) (body' : A → T → result T) xs :
  (∀ x t, x ∈ xs → body x (proj t) = (t' ← body' x t ; Ok (proj t'))) →
  ∀ t, for_each body xs (proj t) = (t' ← for_each body' xs t ; Ok (proj t')).
Proof.
  induction xs as [|x xs IH]; intros Hbody t; simpl; [done|].
  rewrite Hbody; [|left]. destruct (body' x t) as [t1| |]; simpl; [|done..].
  apply IH. intros y t2 Hy. apply Hbody. by right.
Qed.

(** Visiting a new member of a finite universe leaves one fewer to visit. *)
Lemma universe_visit_gen (U : gset string) current (visited : gset string) :
  current ∈ U → current ∉ visited →
  S (size (U ∖ ({[current]} ∪ visited))) = size (U ∖ visited).
Proof.
  intros Hin Hnew.
  replace (U ∖ visited) with ({[current]} ∪ U ∖ ({[current]} ∪ visited)).
  - rewrite (size_union {[current]} (U ∖ ({[current]} ∪ visited)))
      by set_solver.
    by rewrite size_singleton.
  - apply set_eq. intros x. destruct (decide (x = current)); set_solver.
Qed.

Section walk_facts.
Import DependencyGraph.
Variable adj : EntityNode → gset string.
Variable nodes : gmap string EntityNode.

Lemma adj_universe current node :
  nodes !! current = Some node → adj node ⊆ universe adj nodes.
Proof.
  intros Hnode x Hx. unfold universe. apply elem_of_union. right.
  apply elem_of_union_list. exists (adj node). split; [|done].
  apply list_elem_of_fmap. exists node. split; [done|].
  apply list_elem_of_fmap. exists (current, node). split; [done|].
  by apply elem_of_map_to_list.
Qed.

Lemma dom_universe current :
  current ∈ dom nodes → current ∈ universe adj nodes.
Proof. unfold universe. set_solver. Qed.

Lemma pushed_length (visited : gset string) node current :
  nodes !! current = Some node →
  length (rev (filter (λ dep, dep ∉ visited) (elements (adj node))))
    ≤ size (universe adj nodes).
Proof.
  intros Hnode. rewrite length_rev.
  etrans; [apply length_filter|].
  change (length (elements (adj node))) with (size (adj node)).
  apply subseteq_size. by eapply adj_universe.
Qed.

Lemma universe_visit current (visited : gset string) :
  current ∈ universe adj nodes → current ∉ visited →
  S (size (universe adj nodes ∖ ({[current]} ∪ visited)))
  = size (universe adj nodes ∖ visited).
Proof. apply universe_visit_gen. Qed.

Lemma universe_visit_le current (visited : gset string) :
  size (universe adj nodes ∖ ({[current]} ∪ visited))
  ≤ size (universe adj nodes ∖ visited).
Proof. apply subseteq_size. set_solver. Qed.

Lemma walk_log_terminates fuel visited log to_visit :
  walk_measure adj nodes visited to_visit < fuel →
  ∃ out, walk_log adj nodes fuel visited log to_visit = Ok out.
Proof.
  unfold walk_measure.
  revert visited log to_visit.
  induction fuel as [|fuel IH]; intros visited log to_visit Hfuel; [lia|].
  destruct to_visit as [|current rest]; simpl; [eauto|].
  simpl in Hfuel.
  destruct (decide (current ∈ visited)) as [Hseen|Hnew].
  - apply IH. lia.
  - destruct (nodes !! current) as [node|] eqn:Hnode.
    + apply IH. rewrite length_app.
      pose proof (pushed_length ({[current]} ∪ visited) node current Hnode).
      assert (current ∈ universe adj nodes) as Hin.
      { apply dom_universe, elem_of_dom. eauto. }
      pose proof (universe_visit current visited Hin Hnew). nia.
    + apply IH. pose proof (universe_visit_le current visited). nia.
Qed.

Lemma walk_log_erase fuel visited log to_visit :
  walk adj nodes fuel visited to_visit
  = (out ← walk_log adj nodes fuel visited log to_visit ; Ok out.1).
Proof.
  revert visited log to_visit.
  induction fuel as [|fuel IH]; intros visited log to_visit; [done|].
  destruct to_visit as [|current rest]; simpl; [done|].
  destruct (decide (current ∈ visited)); [apply IH|].
  destruct (nodes !! current); apply IH.
Qed.

Lemma walk_log_fuel_mono fuel fuel' visited log to_visit out :
  walk_log adj nodes fuel visited log to_visit = Ok out → fuel ≤ fuel' →
  walk_log adj nodes fuel' visited log to_visit = Ok out.
Proof.
  revert fuel' visited log to_visit.
  induction fuel as [|fuel IH]; intros fuel' visited log to_visit Hrun Hle;
    [done|].
  destruct fuel' as [|fuel']; [lia|].
  destruct to_visit as [|current rest]; simpl in *; [done|].
  destruct (decide (current ∈ visited)); [apply IH; [done|lia]|].
  destruct (nodes !! current); (apply IH; [done|lia]).
Qed.

(** What the loop keeps true of [visited] and the log. *)
Lemma walk_log_invariant fuel visited log to_visit v l :
  walk_log adj nodes fuel visited log to_visit = Ok (v, l) →
  NoDup log → (∀ x, x ∈ log → x ∈ visited) →
  NoDup l ∧ visited ⊆ v ∧ (∀ x, x ∈ to_visit → x ∈ v)
  ∧ (∀ x, x ∈ l → x ∈ v).
Proof.
  revert visited log to_visit.
  induction fuel as [|fuel IH]; intros visited log to_visit Hrun Hnd Hlog;
    [done|].
  destruct to_visit as [|current rest]; simpl in Hrun.
  - inversion Hrun; subst. set_solver.
  - destruct (decide (current ∈ visited)) as [Hseen|Hnew].
    + apply IH in Hrun as (? & ? & ? & ?); [|done..].
      split_and!; [done..| |done].
      intros x [->|?]%elem_of_cons; auto.
    + assert (NoDup (log ++ [current])) as Hnd'.
      { apply NoDup_app. split_and!; [done| |apply NoDup_singleton].
        intros x Hx ->%list_elem_of_singleton. auto. }
      assert (∀ x, x ∈ log ++ [current] → x ∈ {[current]} ∪ visited)
        as Hlog'.
      { intros x [?| ->%list_elem_of_singleton]%elem_of_app; set_solver. }
      destruct (nodes !! current) as [node|];
        apply IH in Hrun as (? & Hsub & Hstack & ?); try done.
      * split_and!; [done|set_solver| |done].
        intros x [->|Hx]%elem_of_cons; [set_solver|].
        apply Hstack, elem_of_app. by right.
      * split_and!; [done|set_solver| |done].
        intros x [->|Hx]%elem_of_cons; [set_solver|]. by apply Hstack.
Qed.

Lemma closure_enough fuel entity :
  walk_fuel adj nodes ≤ fuel →
  ∃ v l, walk_log adj nodes fuel ∅ [] [entity] = Ok (v, l)
         ∧ NoDup l ∧ entity ∈ v
         ∧ closure adj nodes fuel entity
           = Ok (if decide (entity ∈ dom nodes) then v ∖ {[entity]} else ∅).
Proof.
  intros Hfuel.
  destruct (walk_log_terminates fuel ∅ [] [entity]) as [[v l] Hrun].
  { unfold walk_measure, walk_fuel in *. simpl.
    replace (universe adj nodes ∖ ∅) with (universe adj nodes) by set_solver.
    lia. }
  exists v, l. split; [done|].
  destruct (walk_log_invariant _ _ _ _ _ _ Hrun) as (? & _ & Hin & _);
    [apply NoDup_nil_2|by intros ? ?%elem_of_nil|].
  assert (entity ∈ v) by (apply Hin; left).
  split_and!; [done..|].
  unfold closure. case_decide; [|done].
  rewrite (walk_log_erase _ _ []), Hrun. simpl.
  unfold set_remove. by rewrite decide_True.
Qed.
End walk_facts.

Section closure_facts.
Import DependencyGraph.
Variable adj : EntityNode → gset string.
Variable nodes : gmap string EntityNode.

Lemma closure_total fuel entity :
  walk_fuel adj nodes ≤ fuel →
  closure adj nodes fuel entity
  = Ok (from_ok ∅ (closure adj nodes (walk_fuel adj nodes) entity)).
Proof.
  intros Hfuel.
  destruct (closure_enough adj nodes (walk_fuel adj nodes) entity)
    as (v0 & l0 & Hrun0 & _ & _ & ->); [done|].
  destruct (closure_enough adj nodes fuel entity)
    as (v & l & Hrun & _ & _ & ->); [done|].
  eapply walk_log_fuel_mono in Hrun0; [|exact Hfuel].
  rewrite Hrun0 in Hrun. by inversion Hrun; subst.
Qed.

Lemma closure_not_self entity :
  entity ∉ from_ok ∅ (closure adj nodes (walk_fuel adj nodes) entity).
Proof.
  destruct (closure_enough adj nodes (walk_fuel adj nodes) entity)
    as (v & l & _ & _ & _ & ->); [done|].
  simpl. case_decide; set_solver.
Qed.

Lemma closure_unknown entity :
  entity ∉ dom nodes →
  from_ok ∅ (closure adj nodes (walk_fuel adj nodes) entity) = ∅.
Proof. intros Hunknown. unfold closure. by rewrite decide_False. Qed.

Lemma closure_expands_once fuel entity :
  walk_fuel adj nodes ≤ fuel →
  ∃ v l, walk_log adj nodes fuel ∅ [] [entity] = Ok (v, l) ∧ NoDup l.
Proof.
  intros Hfuel.
  destruct (closure_enough adj nodes fuel entity)
    as (v & l & ? & ? & _); [done|]. eauto.
Qed.
End closure_facts.

Section dependency_index.
Import DependencyGraph.
Variable nodes : gmap string EntityNode.

Lemma impact_self (entity : string) : entity ∈ get_impact nodes entity.
Proof. unfold get_impact. set_solver. Qed.

Lemma impact_unknown (entity : string) :
  entity ∉ dom nodes → get_impact nodes entity = {[entity]}.
Proof.
  intros Hunknown. unfold get_impact, get_dependents, get_dependents_fuel.
  rewrite closure_unknown by done. set_solver.
Qed.

(** C2. An id is never among its own transitive dependencies or dependents,
    cycle or not; both loops stop (any fuel from [walk_fuel] on gives the
    same set, and the logged run expands no id twice); an id the index does
    not know yields the empty set. *)
Theorem closure_excludes_self (entity : string) :
  (entity ∉ get_dependencies nodes entity)
  ∧ (entity ∉ get_dependents nodes entity)
  ∧ (∀ fuel, walk_fuel dependencies nodes ≤ fuel →
       get_dependencies_fuel nodes fuel entity
       = Ok (get_dependencies nodes entity))
  ∧ (∀ fuel, walk_fuel dependents nodes ≤ fuel →
       get_dependents_fuel nodes fuel entity
       = Ok (get_dependents nodes entity))
  ∧ (∀ adj fuel, walk_fuel adj nodes ≤ fuel →
       ∃ v l, walk_log adj nodes fuel ∅ [] [entity] = Ok (v, l) ∧ NoDup l
              ∧ walk adj nodes fuel ∅ [entity] = Ok v)
  ∧ (entity ∉ dom nodes →
       get_dependencies nodes entity = ∅ ∧ get_dependents nodes entity = ∅).
Proof.
  split_and!.
  - apply closure_not_self.
  - apply closure_not_self.
  - intros fuel. apply closure_total.
  - intros fuel. apply closure_total.
  - intros adj fuel Hfuel.
    destruct (closure_expands_once adj nodes fuel entity Hfuel)
      as (v & l & Hrun & Hnd).
    exists v, l. split_and!; [done..|].
    by rewrite (walk_log_erase _ _ _ _ []), Hrun.
  - intros Hunknown. split; by apply closure_unknown.
Qed.

(** C4. The impact set of an id is the id together with its dependents;
    it always holds the id, and is exactly the id alone when the index does
    not know it. *)
Theorem impact_contains_self (entity : string) :
  (entity ∈ get_impact nodes entity)
  ∧ (get_impact nodes entity = {[entity]} ∪ get_dependents nodes entity)
  ∧ (entity ∉ dom nodes → get_impact nodes entity = {[entity]}).
Proof.
  split_and!; [apply impact_self|done|apply impact_unknown].
Qed.

(** C5. [can_parallelize] is symmetric, and never true of an id with
    itself. *)
Theorem can_parallelize_symmetric (change_a change_b : string) :
  can_parallelize nodes change_a change_b
  = can_parallelize nodes change_b change_a
  ∧ can_parallelize nodes change_a change_a = false.
Proof.
  unfold can_parallelize. split.
  - by rewrite (comm_L (∩)).
  - apply bool_decide_eq_false. rewrite size_empty_iff.
    pose proof (impact_self change_a). set_solver.
Qed.

(** C8, amended. For an id the index knows, the risk tier follows the size
    of the impact set: one is low, two or three is medium, more is high. *)
Theorem risk_tiers_known (entity : string) :
  entity ∈ dom nodes →
  (size (get_impact nodes entity) = 1 →
     analyze_change_risk nodes entity = "low")
  ∧ (2 ≤ size (get_impact nodes entity) ≤ 3 →
     analyze_change_risk nodes entity = "medium")
  ∧ (3 < size (get_impact nodes entity) →
     analyze_change_risk nodes entity = "high").
Proof.
  intros Hknown. unfold analyze_change_risk. rewrite decide_True by done.
  split_and!; intros Hsize; repeat case_decide; done || lia.
Qed.

(** C9. For an id the index does not know the answer is the fourth tier
    "unknown", although its impact set has size one. *)
Theorem risk_unknown_id (entity : string) :
  entity ∉ dom nodes →
  analyze_change_risk nodes entity = "unknown"
  ∧ size (get_impact nodes entity) = 1.
Proof.
  intros Hunknown. unfold analyze_change_risk. rewrite decide_False by done.
  split; [done|].
  rewrite impact_unknown by done. apply size_singleton.
Qed.
End dependency_index.

(** C8, as stated, fails for an id the index does not know: its impact set
    has size one, yet the answer is not "low". *)
Lemma risk_unknown_not_low :
  size (DependencyGraph.get_impact
          (Examples.index_of Examples.order_customer) "ghost") = 1
  ∧ DependencyGraph.analyze_change_risk
      (Examples.index_of Examples.order_customer) "ghost" ≠ "low".
Proof. split; [by vm_compute|]. vm_compute. discriminate. Qed.

Lemma risk_tiers_known_witness :
  DependencyGraph.analyze_change_risk
    (Examples.index_of Examples.order_customer) "order" = "low"
  ∧ DependencyGraph.analyze_change_risk
      (Examples.index_of Examples.order_customer) "customer" = "medium"
  ∧ DependencyGraph.analyze_change_risk
      (Examples.index_of Examples.chain4) "a" = "high".
Proof.
  split_and!.
  - refine (proj1 (risk_tiers_known
                     (Examples.index_of Examples.order_customer) "order" _) _).
    + apply (bool_decide_unpack _). by vm_compute.
    + by vm_compute.
  - refine (proj1 (proj2 (risk_tiers_known
                     (Examples.index_of Examples.order_customer) "customer" _))
              _).
    + apply (bool_decide_unpack _). by vm_compute.
    + vm_compute. lia.
  - refine (proj2 (proj2 (risk_tiers_known
                     (Examples.index_of Examples.chain4) "a" _)) _).
    + apply (bool_decide_unpack _). by vm_compute.
    + vm_compute. lia.
Defined.

Lemma risk_unknown_id_witness :
  DependencyGraph.analyze_change_risk
    (Examples.index_of Examples.order_customer) "ghost" = "unknown"
  ∧ size (DependencyGraph.get_impact
            (Examples.index_of Examples.order_customer) "ghost") = 1.
Proof.
  apply (risk_unknown_id (Examples.index_of Examples.order_customer) "ghost").
  apply (bool_decide_unpack _). by vm_compute.
Defined.

(** The scenarios of the design document, run on the index. *)
Example order_customer_scenario :
  let index := Examples.index_of Examples.order_customer in
  DependencyGraph.build_from_specs (Some Examples.order_customer) = Ok index
  ∧ DependencyGraph.get_dependencies index "order" = {["customer"]}
  ∧ DependencyGraph.get_dependents index "customer" = {["order"]}
  ∧ DependencyGraph.get_impact index "customer" = {["customer"; "order"]}
  ∧ DependencyGraph.can_parallelize index "order" "customer" = false
  ∧ DependencyGraph.get_change_order index ["order"; "customer"]
    = ["customer"; "order"].
Proof. by vm_compute. Qed.

Example abc_cycle_scenario :
  let index := Examples.index_of Examples.abc_cycle in
  DependencyGraph.get_change_order index ["A"; "B"; "C"] = ["A"; "B"; "C"]
  ∧ DependencyGraph.get_dependencies index "A" = {["B"; "C"]}.
Proof. by vm_compute. Qed.

(** ** Lineage queries *)

Section first_occurrences_facts.
Import GraphBuilder.

Lemma first_occurrences_elem (seen : gset string) l x :
  x ∈ first_occurrences seen l ↔ x ∈ l ∧ x ∉ seen.
Proof.
  revert seen. induction l as [|y l IH]; intros seen; simpl.
  - set_solver.
  - case_decide.
    + rewrite IH. set_solver.
    + rewrite elem_of_cons, IH. destruct (decide (x = y)); set_solver.
Qed.


Lemma first_occurrences_app (seen : gset string) l1 l2 :
  first_occurrences seen (l1 ++ l2)
  = first_occurrences seen l1
    ++ first_occurrences (seen ∪ list_to_set (first_occurrences seen l1)) l2.
Proof.
  revert seen. induction l1 as [|y l1 IH]; intros seen; simpl.
  - f_equal. set_solver.
  - case_decide.
    + apply IH.
    + simpl. f_equal. rewrite IH. do 2 f_equal. set_solver.
Qed.
End first_occurrences_facts.

Section lineage_facts.
Import GraphBuilder.
Variable edges : list Edge.
Variable direction : string.

Lemma follow_erase rec rec' current edge t :
  (∀ c t, rec c t.1 = (t' ← rec' c t ; Ok t'.1)) →
  follow rec direction current edge t.1
  = (t' ← follow_log rec' direction current edge t ; Ok t'.1).
Proof.
  intros Hrec. unfold follow, follow_log.
  repeat case_decide; try done; apply (Hrec _ (_, _, _)).
Qed.

Lemma traverse_log_erase fuel current t :
  traverse edges direction fuel current t.1
  = (t' ← traverse_log edges direction fuel current t ; Ok t'.1).
Proof.
  revert current t. induction fuel as [|fuel IH]; intros current t; [done|].
  simpl. case_decide; [done|].
  apply (for_each_erase fst _ _ edges) with (t := (_, _, _)).
  intros edge t' _. by apply follow_erase.
Qed.

Lemma endpoints_source edge : edge ∈ edges → source edge ∈ endpoints edges.
Proof.
  intros Hin. unfold endpoints. apply elem_of_union. left.
  apply elem_of_list_to_set, list_elem_of_fmap. eauto.
Qed.

Lemma endpoints_target edge : edge ∈ edges → target edge ∈ endpoints edges.
Proof.
  intros Hin. unfold endpoints. apply elem_of_union. right.
  apply elem_of_list_to_set, list_elem_of_fmap. eauto.
Qed.

Lemma traverse_log_terminates fuel current st :
  size (endpoints edges ∖ st.1.1)
  + (if decide (current ∈ endpoints edges) then 0 else 1) < fuel →
  ∃ st', traverse_log edges direction fuel current st = Ok st'
         ∧ st.1.1 ⊆ st'.1.1.
Proof.
  revert current st.
  induction fuel as [|fuel IH]; intros current [[V R] O] Hfuel; [lia|].
  simpl in *. destruct (decide (current ∈ V)) as [Hseen|Hseen]; [eauto|].
  assert (size (endpoints edges ∖ ({[current]} ∪ V)) < fuel) as Hless.
  { destruct (decide (current ∈ endpoints edges)) as [Hin|Hin].
    - pose proof (universe_visit_gen (endpoints edges) current V Hin Hseen).
      lia.
    - assert (size (endpoints edges ∖ ({[current]} ∪ V))
              ≤ size (endpoints edges ∖ V)) as Hle
        by (apply subseteq_size; set_solver).
      lia. }
  destruct (for_each_total (λ st, {[current]} ∪ V ⊆ st.1.1)
              (follow_log (traverse_log edges direction fuel) direction current)
              edges) with (st := ({[current]} ∪ V, R, O ++ [current]))
    as (st' & Hrun & Hsub); [|done|].
  - intros edge [[V1 R1] O1] Hedge Hinv. simpl in Hinv.
    assert (size (endpoints edges ∖ V1) < fuel) as Hless1.
    { assert (size (endpoints edges ∖ V1)
              ≤ size (endpoints edges ∖ ({[current]} ∪ V))) as Hle
        by (apply subseteq_size; set_solver).
      lia. }
    unfold follow_log. simpl.
    destruct (decide (direction = "upstream" ∧ target edge = current));
      [|destruct (decide (direction = "downstream" ∧ source edge = current))].
    + destruct (IH (source edge) (V1, R1 ++ [source edge], O1))
        as (st' & -> & Hsub).
      { simpl. rewrite decide_True by by apply endpoints_source. lia. }
      exists st'. split; [done|]. simpl in Hsub. set_solver.
    + destruct (IH (target edge) (V1, R1 ++ [target edge], O1))
        as (st' & -> & Hsub).
      { simpl. rewrite decide_True by by apply endpoints_target. lia. }
      exists st'. split; [done|]. simpl in Hsub. set_solver.
    + eauto.
  - exists st'. split; [done|]. simpl in *. set_solver.
Qed.
Lemma traverse_log_fuel_mono fuel fuel' current st st' :
  traverse_log edges direction fuel current st = Ok st' → fuel ≤ fuel' →
  traverse_log edges direction fuel' current st = Ok st'.
Proof.
  revert fuel' current st st'.
  induction fuel as [|fuel IH]; intros fuel' current st st' Hrun Hle; [done|].
  destruct fuel' as [|fuel']; [lia|]. simpl in *.
  case_decide; [done|].
  eapply for_each_mono; [|exact Hrun].
  intros edge s1 s2 _. unfold follow_log.
  repeat case_decide; try done; intros Hcall; (apply IH; [done|lia]).
Qed.

Lemma follow_log_spec rec current es V R O st' :
  (∀ c V R O st', rec c (V, R, O) = Ok st' →
     ∃ r o, extends edges direction V R O r o st'
            ∧ o = first_occurrences V (c :: r)
            ∧ (∀ x, x ∈ r → tc (step edges direction) c x)
            ∧ r ≡ₚ o ≫= neighbours edges direction) →
  es ⊆ edges → current ∈ V →
  for_each (follow_log rec direction current) es (V, R, O) = Ok st' →
  ∃ r o, extends edges direction V R O r o st'
         ∧ o = first_occurrences V r
         ∧ (∀ x, x ∈ r → tc (step edges direction) current x)
         ∧ r ≡ₚ neighbours es direction current
                ++ (o ≫= neighbours edges direction)
         ∧ (∀ edge b, edge ∈ es →
              (direction = "upstream" ∧ target edge = current
               ∧ source edge = b)
              ∨ (direction = "downstream" ∧ source edge = current
                 ∧ target edge = b) →
              b ∈ r ∧ b ∈ V ∪ list_to_set o).
Proof.
  intros Hrec. revert V R O st'.
  induction es as [|edge es IH]; intros V R O st' Hes Hcur Hrun; simpl in Hrun.
  - inversion Hrun; subst. exists [], []. unfold extends. simpl.
    rewrite !app_nil_r. split_and!; [tuple_eq|..]; set_solver.
  - assert (edge ∈ edges) as Hedge by set_solver.
    assert (es ⊆ edges) as Hes' by set_solver.
    destruct (follow_log rec direction current edge (V, R, O))
      as [st1| |] eqn:Hbody; simpl in Hrun; try done.
    unfold follow_log in Hbody. simpl in Hbody.
    assert ((∃ far r1 o1,
               ((direction = "upstream" ∧ target edge = current
                 ∧ source edge = far)
                ∨ (direction = "downstream" ∧ source edge = current
                   ∧ target edge = far))
               ∧ far_end direction current edge = Some far
               ∧ extends edges direction V R O (far :: r1) o1 st1
               ∧ o1 = first_occurrences V (far :: r1)
               ∧ (∀ x, x ∈ r1 → tc (step edges direction) far x)
               ∧ r1 ≡ₚ o1 ≫= neighbours edges direction)
            ∨ (st1 = (V, R, O)
               ∧ far_end direction current edge = None
               ∧ ¬ (direction = "upstream" ∧ target edge = current)
               ∧ ¬ (direction = "downstream" ∧ source edge = current)))
      as Hcases.
    { unfold far_end.
      destruct (decide (direction = "upstream" ∧ target edge = current))
        as [[Hd Ht]|Hup];
        [|destruct (decide (direction = "downstream"
                            ∧ source edge = current)) as [[Hd Hs]|Hdown]].
      - apply Hrec in Hbody as (r1 & o1 & [-> Hclosed] & Ho & Hsound & Hperm).
        left. exists (source edge), r1, o1.
        split_and!; [by left|done| |done..].
        split; [by rewrite <- app_assoc|].
        intros a b Ha Hab. destruct (Hclosed a b Ha Hab). set_solver.
      - apply Hrec in Hbody as (r1 & o1 & [-> Hclosed] & Ho & Hsound & Hperm).
        left. exists (target edge), r1, o1.
        split_and!; [by right|done| |done..].
        split; [by rewrite <- app_assoc|].
        intros a b Ha Hab. destruct (Hclosed a b Ha Hab). set_solver.
      - right. by inversion Hbody. }
    unfold neighbours at 1. simpl.
    destruct Hcases
      as [(far & r1 & o1 & Hmatch & -> & [-> Hclosed1] & Ho1 & Hsound1 & Hperm1)
         |(-> & -> & Hup & Hdown)].
    + apply IH in Hrun
        as (r2 & o2 & [-> Hclosed2] & Ho2 & Hsound2 & Hperm2 & Hedges2);
        [|done|set_solver].
      assert (step edges direction current far) as Hstep
        by (exists edge; split; [done|tauto]).
      exists ((far :: r1) ++ r2), (o1 ++ o2). split_and!.
      * split.
        { rewrite list_to_set_app_L, !app_assoc. tuple_eq. set_solver. }
        intros a b [Ha|Ha]%elem_of_app Hab.
        -- destruct (Hclosed1 a b Ha Hab). set_solver.
        -- destruct (Hclosed2 a b Ha Hab). set_solver.
      * rewrite first_occurrences_app, <- Ho1. by f_equal.
      * intros x [[->|Hx]%elem_of_cons|Hx]%elem_of_app.
        -- by apply tc_once.
        -- eapply tc_l; [exact Hstep|by apply Hsound1].
        -- by apply Hsound2.
      * simpl. f_equiv. rewrite bind_app, Hperm1, Hperm2.
        fold (neighbours es direction current).
        by rewrite (assoc (++)), (comm (++) (o1 ≫= _)), <- (assoc (++)).
      * intros edge' b [->|Hin]%elem_of_cons Hb.
        -- assert (b = far) as -> by (destruct Hmatch, Hb; naive_solver).
           split; [set_solver|].
           destruct (decide (far ∈ V)); [set_solver|].
           apply elem_of_union. right. rewrite list_to_set_app_L.
           apply elem_of_union. left. apply elem_of_list_to_set.
           rewrite Ho1. apply first_occurrences_elem. set_solver.
        -- destruct (Hedges2 edge' b Hin Hb). set_solver.
    + apply IH in Hrun
        as (r2 & o2 & Hext & Ho2 & Hsound2 & Hperm2 & Hedges2); [|done..].
      exists r2, o2. split_and!; [done..|].
      intros edge' b [->|Hin]%elem_of_cons Hb; [tauto|eauto].
Qed.

Lemma traverse_log_spec fuel current V R O st' :
  traverse_log edges direction fuel current (V, R, O) = Ok st' →
  ∃ r o, extends edges direction V R O r o st'
         ∧ o = first_occurrences V (current :: r)
         ∧ (∀ x, x ∈ r → tc (step edges direction) current x)
         ∧ r ≡ₚ o ≫= neighbours edges direction.
Proof.
  revert current V R O st'.
  induction fuel as [|fuel IH]; intros current V R O st' Hrun; [done|].
  simpl in Hrun. destruct (decide (current ∈ V)) as [Hseen|Hnew].
  - inversion Hrun; subst. exists [], []. unfold extends. simpl.
    rewrite decide_True by done. rewrite !app_nil_r.
    split_and!; [tuple_eq|..]; set_solver.
  - apply follow_log_spec in Hrun
      as (r & o & [-> Hclosed] & Ho & Hsound & Hperm & Hedges);
      [|exact IH|done|set_solver].
    exists r, (current :: o). split_and!.
    + split.
      { simpl. rewrite <- app_assoc. simpl. tuple_eq. set_solver. }
      intros a b [->|Ha]%elem_of_cons Hab.
      * destruct Hab as (edge & Hedge & Hmatch).
        destruct (Hedges edge b Hedge Hmatch). set_solver.
      * destruct (Hclosed a b Ha Hab). set_solver.
    + simpl. rewrite decide_False by done. by f_equal.
    + done.
    + done.
Qed.
Lemma step_neighbours a b :
  step edges direction a b ↔ b ∈ neighbours edges direction a.
Proof.
  unfold step, neighbours, far_end. rewrite list_elem_of_omap. split.
  - intros (edge & Hin & Hmatch). exists edge. split; [done|].
    repeat case_decide; naive_solver.
  - intros (edge & Hin & Hfar). exists edge. split; [done|].
    repeat case_decide; naive_solver.
Qed.

Lemma lineage_run node_id :
  ∃ r o,
    (∀ fuel, lineage_fuel edges ≤ fuel →
       traverse_log edges direction fuel node_id (∅, [], [])
       = Ok (list_to_set o, r, o))
    ∧ get_lineage edges node_id direction = r
    ∧ visit_order edges node_id direction = o
    ∧ o = node_id :: first_occurrences {[node_id]} r
    ∧ (∀ x, x ∈ r ↔ tc (step edges direction) node_id x)
    ∧ r ≡ₚ o ≫= neighbours edges direction.
Proof.
  destruct (traverse_log_terminates (lineage_fuel edges) node_id (∅, [], []))
    as (st & Hrun & _).
  { simpl. unfold lineage_fuel.
    assert (size (endpoints edges ∖ ∅) ≤ size (endpoints edges))
      by (apply subseteq_size; set_solver).
    case_decide; lia. }
  destruct (traverse_log_spec _ _ _ _ _ _ Hrun)
    as (r & o & [-> Hclosed] & Ho & Hsound & Hperm).
  simpl in *. rewrite decide_False in Ho by set_solver.
  replace (∅ ∪ list_to_set o) with (list_to_set o : gset string) in *
    by set_solver.
  replace ({[node_id]} ∪ ∅) with ({[node_id]} : gset string) in * by set_solver.
  exists r, o. split_and!; try done.
  - intros fuel Hfuel. by eapply traverse_log_fuel_mono.
  - unfold get_lineage, get_lineage_fuel.
    pose proof (traverse_log_erase (lineage_fuel edges) node_id (∅, [], []))
      as Herase.
    simpl in Herase. by rewrite Herase, Hrun.
  - unfold visit_order. by rewrite Hrun.
  - intros x. split; [apply Hsound|].
    assert (∀ a, a ∈ o → tc (step edges direction) a x → x ∈ r) as Hreach.
    { intros a Ha Hax. revert Ha.
      induction Hax as [a x Hstep|a b x Hstep _ IH]; intros Ha.
      - by destruct (Hclosed a x Ha Hstep).
      - destruct (Hclosed a b Ha Hstep) as [_ Hb]. apply IH. set_solver. }
    apply Hreach. rewrite Ho. left.
Qed.

End lineage_facts.



(** C10. On the edges Y→X, Z→X, Z→Y the upstream lineage of X lists Z
    twice; on the two-cycle X⇄Y the upstream lineage of X lists X itself.
    In general the list has one entry for every matching edge scanned at a
    visited id. *)
Theorem lineage_repeats_ids :
  GraphBuilder.get_lineage Examples.diamond "X" "upstream" = ["Y"; "Z"; "Z"]
  ∧ ¬ NoDup (GraphBuilder.get_lineage Examples.diamond "X" "upstream")
  ∧ GraphBuilder.get_lineage Examples.two_cycle "X" "upstream" = ["Y"; "X"]
  ∧ "X" ∈ GraphBuilder.get_lineage Examples.two_cycle "X" "upstream"
  ∧ (∀ edges direction node_id,
       length (GraphBuilder.get_lineage edges node_id direction)
       = sum_list
           ((λ a, length (GraphBuilder.neighbours edges direction a))
              <$> GraphBuilder.visit_order edges node_id direction)).
Proof.
  split_and!.
  - by vm_compute.
  - replace (GraphBuilder.get_lineage Examples.diamond "X" "upstream")
      with ["Y"; "Z"; "Z"] by by vm_compute.
    intros Hnd. apply NoDup_cons_1_2, NoDup_cons_1_1 in Hnd. set_solver.
  - by vm_compute.
  - replace (GraphBuilder.get_lineage Examples.two_cycle "X" "upstream")
      with ["Y"; "X"] by by vm_compute.
    set_solver.
  - intros edges direction node_id.
    destruct (lineage_run edges direction node_id)
      as (r & o & _ & -> & -> & _ & _ & Hperm).
    rewrite Hperm. clear. induction o as [|a o IH]; [done|].
    rewrite bind_cons, length_app, fmap_cons, IH. done.
Qed.

(** ** The graph compiler *)

Section compiler_facts.
Import GraphCompiler.

Lemma add_entity_node_ok e acc acc' :
  add_entity_node e acc = Ok acc' →
  ∃ name node, entity_name e = Some name
    ∧ node_id node = "asset.entity." +:+ lower name
    ∧ acc' = acc ++ [node].
Proof.
  unfold add_entity_node, entity_to_node.
  destruct (entity_name e) as [name|]; simpl; [|done].
  intros [= <-]. eexists name, _.
  split; [done|]. split; [|reflexivity]. done.
Qed.


Lemma entity_nodes_ok es acc ns :
  for_each add_entity_node es acc = Ok ns →
  length ns = length acc + length es
  ∧ (∀ n, n ∈ acc → n ∈ ns)
  ∧ (∀ e, e ∈ es → ∃ name, entity_name e = Some name
       ∧ "asset.entity." +:+ lower name ∈ node_id <$> ns).
Proof.
  revert acc. induction es as [|e es IH]; intros acc Hrun; simpl in Hrun.
  - inversion Hrun; subst. split_and!; [simpl; lia|done|].
    by intros e ?%elem_of_nil.
  - destruct (add_entity_node e acc) as [acc1| |] eqn:Hadd; simpl in Hrun;
      try done.
    apply add_entity_node_ok in Hadd as (name & node & Hname & Hid & ->).
    apply IH in Hrun as (Hlen & Hacc & Hes).
    rewrite length_app in Hlen. simpl in *. split_and!; [lia| |].
    + intros n Hn. apply Hacc, elem_of_app. by left.
    + intros e' [->|He']%elem_of_cons; [|by apply Hes].
      exists name. split; [done|]. rewrite <- Hid.
      apply list_elem_of_fmap. exists node. split; [done|].
      apply Hacc, elem_of_app. right. left.
Qed.


Lemma closed_edges_snoc node_ids edges edge :
  closed_edges node_ids edges →
  source edge ∈ node_ids → target edge ∈ node_ids →
  closed_edges node_ids (edges ++ [edge]).
Proof.
  intros Hclosed Hs Ht e [He| ->%list_elem_of_singleton]%elem_of_app; auto.
Qed.

Lemma field_edge_closed node_ids entity_id field edges edges' :
  entity_id ∈ node_ids → closed_edges node_ids edges →
  field_edge node_ids entity_id field edges = Ok edges' →
  closed_edges node_ids edges'.
Proof.
  intros Hid Hclosed. unfold field_edge.
  destruct (is_reference field); [|by intros [= <-]].
  destruct (field_references field) as [ref|]; simpl; [|done].
  case_decide; [|by intros [= <-]].
  destruct (field_name field); simpl; [|done].
  intros [= <-]. by apply closed_edges_snoc.
Qed.

Lemma flow_edge_closed node_ids wf_id rel verb item edges edges' :
  wf_id ∈ node_ids → closed_edges node_ids edges →
  flow_edge node_ids wf_id rel verb item edges = Ok edges' →
  closed_edges node_ids edges'.
Proof.
  intros Hid Hclosed. unfold flow_edge.
  case_decide; intros [= <-]; [|done]. by apply closed_edges_snoc.
Qed.

Lemma build_edges_closed specs nodes edges :
  (∀ e name, e ∈ entities specs → entity_name e = Some name →
     "asset.entity." +:+ lower name ∈ node_id <$> nodes) →
  (∀ w, w ∈ workflows specs → node_id (workflow_to_node w) ∈ node_id <$> nodes) →
  build_edges specs nodes = Ok edges →
  closed_edges (list_to_set (node_id <$> nodes)) edges.
Proof.
  intros Hentities Hworkflows. unfold build_edges.
  set (node_ids := list_to_set (node_id <$> nodes) : gset string).
  destruct (for_each (entity_edges node_ids) (entities specs) [])
    as [edges1| |] eqn:Hrun1; simpl; [|done..].
  intros Hrun2.
  assert (closed_edges node_ids edges1) as Hclosed1.
  { eapply (for_each_invariant (closed_edges node_ids)); [| |exact Hrun1].
    - intros e acc acc' He Hacc. unfold entity_edges.
      destruct (entity_name e) as [name|] eqn:Hname; simpl; [|done].
      apply (for_each_invariant (closed_edges node_ids)); [|done].
      intros field acc1 acc2 _. apply field_edge_closed.
      apply elem_of_list_to_set. by eapply Hentities.
    - by intros edge ?%elem_of_nil. }
  eapply (for_each_invariant (closed_edges node_ids)); [|exact Hclosed1|exact Hrun2].
  intros w acc acc' Hw Hacc. unfold workflow_edges.
  assert ("wf.process." +:+
            default (default "unknown" (workflow_name w)) (workflow_id w)
          ∈ node_ids) as Hid.
  { apply elem_of_list_to_set. by apply (Hworkflows w). }
  destruct (for_each _ (workflow_produces w) acc) as [acc1| |] eqn:Hp;
    simpl; [|done..].
  apply (for_each_invariant (closed_edges node_ids)).
  - intros item s1 s2 _. by apply flow_edge_closed.
  - eapply (for_each_invariant (closed_edges node_ids)); [|exact Hacc|exact Hp].
    intros item s1 s2 _. by apply flow_edge_closed.
Qed.

Lemma generate_graph_ok specs output_dir now graph paths :
  generate_graph specs output_dir now = Ok (graph, paths) →
  ∃ ns, for_each add_entity_node (entities specs) [] = Ok ns
    ∧ nodes graph = (ns ++ (algorithm_to_node <$> algorithms specs))
                    ++ (workflow_to_node <$> workflows specs)
    ∧ build_edges specs (nodes graph) = Ok (edges graph)
    ∧ paths = [output_dir +:+ "/data/graph.json"].
Proof.
  unfold generate_graph.
  destruct (for_each add_entity_node (entities specs) []) as [ns| |];
    simpl; [|done..].
  destruct (build_edges specs _) as [es| |] eqn:Hedges; simpl; [|done..].
  intros [= <- <-]. simpl. eauto.
Qed.

(** C3. In every graph document the compiler produces, the source and the
    target of each edge are ids of nodes of that document; a reference to an
    id that is not a node's adds no edge. *)
Theorem graph_edges_closed specs output_dir now graph paths :
  generate_graph specs output_dir now = Ok (graph, paths) →
  (∀ edge, edge ∈ edges graph →
     source edge ∈ node_id <$> nodes graph
     ∧ target edge ∈ node_id <$> nodes graph)
  ∧ (∀ node_ids entity_id field reference acc,
       field_references field = Some reference →
       "asset.entity." +:+ lower reference ∉ node_ids →
       field_edge node_ids entity_id field acc = Ok acc)
  ∧ (∀ node_ids wf_id rel verb item acc,
       "asset.entity." +:+ lower item ∉ node_ids →
       flow_edge node_ids wf_id rel verb item acc = Ok acc).
Proof.
  intros (ns & Hnodes & Hg & Hedges & _)%generate_graph_ok. split_and!.
  - apply entity_nodes_ok in Hnodes as (_ & _ & Hentities).
    intros edge Hedge.
    apply build_edges_closed in Hedges.
    + destruct (Hedges edge Hedge) as [Hs Ht].
      by rewrite !elem_of_list_to_set in Hs, Ht.
    + intros e name He Hname. destruct (Hentities e He) as (name' & Hname' & Hin).
      rewrite Hname in Hname'. injection Hname' as <-.
      rewrite Hg, !fmap_app, !elem_of_app. by do 2 left.
    + intros w Hw. rewrite Hg, !fmap_app, !elem_of_app. right.
      apply list_elem_of_fmap. exists (workflow_to_node w). split; [done|].
      apply list_elem_of_fmap. eauto.
  - intros node_ids entity_id field reference acc Href Hmissing.
    unfold field_edge. destruct (is_reference field); [|done].
    rewrite Href. simpl. by rewrite decide_False.
  - intros node_ids wf_id rel verb item acc Hmissing.
    unfold flow_edge. by rewrite decide_False.
Qed.

End compiler_facts.

Lemma graph_edges_closed_witness :
  ∃ graph paths,
    GraphCompiler.generate_graph Examples.shop_specs "out" "2026-01-01T00:00:00"
    = Ok (graph, paths)
    ∧ length (GraphCompiler.edges graph) = 3
    ∧ ∀ edge, edge ∈ GraphCompiler.edges graph →
        GraphCompiler.source edge
          ∈ GraphCompiler.node_id <$> GraphCompiler.nodes graph
        ∧ GraphCompiler.target edge
          ∈ GraphCompiler.node_id <$> GraphCompiler.nodes graph.
Proof.
  eexists _, _. split; [vm_compute; reflexivity|]. split; [reflexivity|].
  apply (graph_edges_closed Examples.shop_specs "out" "2026-01-01T00:00:00"
           _ ["out/data/graph.json"]).
  vm_compute. reflexivity.
Defined.



(** ** Change ordering *)

Lemma foldl_insert_dom {V} (v : V) (l : list string) (m : gmap string V) :
  dom (foldl (λ m e, <[e := v]> m) m l) = dom m ∪ list_to_set l.
Proof.
  revert m. induction l as [|x l IH]; intros m; simpl; [set_solver|].
  rewrite IH, dom_insert_L. set_solver.
Qed.

Lemma foldl_insert_lookup {V} (v : V) (l : list string) (m : gmap string V) x w :
  foldl (λ m e, <[e := v]> m) m l !! x = Some w →
  w = v ∨ m !! x = Some w.
Proof.
  revert m. induction l as [|y l IH]; intros m; simpl; [by right|].
  intros [->|Hm]%IH; [by left|].
  destruct (decide (y = x)) as [->|Hne].
  - rewrite lookup_insert_eq in Hm. left. congruence.
  - rewrite lookup_insert_ne in Hm by done. by right.
Qed.

Lemma size_list_to_set_le (l : list string) :
  size (list_to_set l : gset string) ≤ length l.
Proof.
  induction l as [|x l IH]; [by rewrite list_to_set_nil, size_empty|].
  rewrite list_to_set_cons, size_union_alt, size_singleton. simpl.
  assert (size (list_to_set l ∖ {[x]} : gset string)
          ≤ size (list_to_set l : gset string))
    by (apply subseteq_size; set_solver).
  lia.
Qed.

(** A loop whose invariant speaks of the part of the list gone through. *)
Lemma for_each_prefix {A S} (Inv : list A → S → Prop)
    (body : A → S → result S) xs st0 :
  Inv [] st0 →
  (∀ pre x suf st, xs = pre ++ x :: suf → Inv pre st →
     ∃ st', body x st = Ok st' ∧ Inv (pre ++ [x]) st') →
  ∃ st', for_each body xs st0 = Ok st' ∧ Inv xs st'.
Proof.
  intros Hinit Hstep.
  assert (∀ suf pre st, xs = pre ++ suf → Inv pre st →
            ∃ st', for_each body suf st = Ok st' ∧ Inv xs st') as Hgen.
  { induction suf as [|x suf IH]; intros pre st Hxs Hpre; simpl.
    - rewrite app_nil_r in Hxs. subst. eauto.
    - destruct (Hstep pre x suf st Hxs Hpre) as (st1 & -> & Hinv). simpl.
      apply (IH (pre ++ [x])); [|done]. by rewrite <- app_assoc. }
  by apply (Hgen xs []).
Qed.

Section change_order_total.
Import DependencyGraph.
Variable nodes : gmap string EntityNode.
Variable entities : list string.

Lemma init_well_keyed :
  well_keyed entities (init_graph entities, init_in_degree entities).
Proof.
  unfold well_keyed, init_graph, init_in_degree. simpl.
  rewrite !foldl_insert_dom, dom_empty_L. split_and!; [set_solver..|].
  intros d l x [->|Hl]%foldl_insert_lookup; [by intros ?%elem_of_nil|].
  by rewrite lookup_empty in Hl.
Qed.

Lemma count_edge_total entity dep st :
  entity ∈ entities → well_keyed entities st →
  ∃ st', count_edge entities entity dep st = Ok st' ∧ well_keyed entities st'.
Proof.
  intros Hentity (Hg & Hd & Hrange). unfold count_edge.
  case_decide as Hdep; [|by eexists].
  assert (is_Some (st.1 !! dep)) as [out Hout].
  { apply elem_of_dom. rewrite Hg. set_solver. }
  assert (is_Some (st.2 !! entity)) as [deg Hdeg].
  { apply elem_of_dom. rewrite Hd. set_solver. }
  rewrite Hout, Hdeg. simpl. eexists. split; [done|].
  unfold well_keyed. simpl. rewrite !dom_insert_L. split_and!; [set_solver..|].
  intros d l x Hl Hx. destruct (decide (dep = d)) as [->|Hne].
  - rewrite lookup_insert_eq in Hl. injection Hl as <-.
    apply elem_of_app in Hx as [Hx| ->%list_elem_of_singleton]; eauto.
  - rewrite lookup_insert_ne in Hl by done. eauto.
Qed.

Lemma count_entity_total entity st :
  entity ∈ entities → well_keyed entities st →
  ∃ st', count_entity nodes entities entity st = Ok st'
         ∧ well_keyed entities st'.
Proof.
  intros Hentity Hst. unfold count_entity.
  destruct (nodes !! entity) as [node|]; [|by eexists].
  apply (for_each_total (well_keyed entities)); [|done].
  intros dep st1 _. by apply count_edge_total.
Qed.

Lemma counting_total :
  ∃ st, for_each (count_entity nodes entities) entities
          (init_graph entities, init_in_degree entities) = Ok st
        ∧ well_keyed entities st.
Proof.
  apply (for_each_total (well_keyed entities)); [|apply init_well_keyed].
  intros entity st Hentity. by apply count_entity_total.
Qed.

(** The comprehension [[e for e in entities if in_degree[e] == 0]]. *)
Lemma ready_queue (in_degree : gmap string Z) es acc :
  (∀ e, e ∈ es → e ∈ dom in_degree) →
  for_each (λ e q, deg ← subscript e (in_degree !! e) ;
                   Ok (if decide (deg = 0%Z) then q ++ [e] else q)) es acc
  = Ok (acc ++ filter (λ e, in_degree !! e = Some 0%Z) es).
Proof.
  revert acc. induction es as [|e es IH]; intros acc Hes; simpl.
  - by rewrite app_nil_r.
  - assert (is_Some (in_degree !! e)) as [deg Hdeg]
      by (apply elem_of_dom, Hes; left).
    rewrite Hdeg. simpl. rewrite IH by (intros; apply Hes; by right).
    rewrite filter_cons, Hdeg. f_equal.
    destruct (decide (deg = 0%Z)) as [->|Hne].
    + rewrite decide_True by done. by rewrite <- app_assoc.
    + rewrite decide_False by congruence. done.
Qed.

Lemma release_total x (in_degree : gmap string Z) queue :
  x ∈ dom in_degree →
  ∃ in_degree' queue',
    release x (in_degree, queue) = Ok (in_degree', queue')
    ∧ dom in_degree' = dom in_degree
    ∧ length queue' + pos_count in_degree'
      ≤ length queue + pos_count in_degree.
Proof.
  intros [deg Hdeg]%elem_of_dom. unfold release. simpl. rewrite Hdeg. simpl.
  eexists _, _. split; [done|]. split.
  { rewrite dom_insert_L. apply elem_of_dom_2 in Hdeg. set_solver. }
  unfold pos_count. rewrite map_filter_insert. simpl.
  destruct (decide (deg - 1 = 0)%Z) as [Hzero|Hnonzero].
  - rewrite decide_False by lia. rewrite map_filter_delete, length_app. simpl.
    rewrite map_size_delete_Some.
    + assert (size (filter (λ kv : string * Z, (0 < kv.2)%Z) in_degree) ≠ 0).
      { intros Hempty%map_size_empty_iff.
        assert (filter (λ kv : string * Z, (0 < kv.2)%Z) in_degree !! x
                = Some deg) as Hin
          by (apply map_lookup_filter_Some; split; [done|simpl; lia]).
        by rewrite Hempty, lookup_empty in Hin. }
      lia.
    + exists deg. apply map_lookup_filter_Some. split; [done|simpl; lia].
  - destruct (decide (0 < deg - 1)%Z) as [Hpos|Hneg].
    + rewrite map_size_insert_Some; [lia|].
      exists deg. apply map_lookup_filter_Some. split; [done|simpl; lia].
    + rewrite map_filter_delete, map_size_delete_None; [lia|].
      apply map_lookup_filter_None. right. intros deg' Hdeg'. simpl.
      rewrite Hdeg in Hdeg'. injection Hdeg' as <-. lia.
Qed.

Lemma release_all_total xs (in_degree : gmap string Z) queue :
  (∀ x, x ∈ xs → x ∈ dom in_degree) →
  ∃ st, for_each release xs (in_degree, queue) = Ok st
    ∧ dom st.1 = dom in_degree
    ∧ length st.2 + pos_count st.1 ≤ length queue + pos_count in_degree.
Proof.
  intros Hxs.
  apply (for_each_total
           (λ st, dom st.1 = dom in_degree
                  ∧ length st.2 + pos_count st.1
                    ≤ length queue + pos_count in_degree)); [|done].
  intros x [deg_map q] Hx [Hdom Hle]. simpl in *.
  destruct (release_total x deg_map q) as (d' & q' & -> & Hdom' & Hle').
  { rewrite Hdom. by apply Hxs. }
  eexists. split; [done|]. simpl. split; [congruence|lia].
Qed.

Lemma kahn_total graph fuel (in_degree : gmap string Z) queue output :
  (∀ d l x, graph !! d = Some l → x ∈ l → x ∈ dom in_degree) →
  length queue + pos_count in_degree < fuel →
  ∃ out, kahn graph fuel in_degree queue output = Ok out.
Proof.
  intros Hrange. revert in_degree queue output Hrange.
  induction fuel as [|fuel IH]; intros in_degree queue output Hrange Hfuel;
    [lia|].
  destruct queue as [|current rest]; simpl; [by eexists|].
  destruct (release_all_total (default [] (graph !! current)) in_degree rest)
    as ([d' q'] & -> & Hdom & Hle).
  { intros x Hx. destruct (graph !! current) as [l|] eqn:Hl; simpl in Hx.
    - by eapply Hrange.
    - by apply elem_of_nil in Hx. }
  simpl in *. apply IH; [|lia].
  intros d l x. rewrite Hdom. apply Hrange.
Qed.

Lemma kahn_fuel_mono graph fuel fuel' in_degree queue output out :
  kahn graph fuel in_degree queue output = Ok out → fuel ≤ fuel' →
  kahn graph fuel' in_degree queue output = Ok out.
Proof.
  revert fuel' in_degree queue output.
  induction fuel as [|fuel IH]; intros fuel' in_degree queue output Hrun Hle;
    [done|].
  destruct fuel' as [|fuel']; [lia|].
  destruct queue as [|current rest]; simpl in *; [done|].
  destruct (for_each release _ _) as [st| |]; simpl in *; try done.
  apply IH; [done|lia].
Qed.

(** [get_change_order] always returns: no lookup fails and the loop stops
    within [change_order_fuel] iterations, whatever the list of ids. *)
Lemma get_change_order_total fuel :
  change_order_fuel entities ≤ fuel →
  get_change_order_fuel nodes fuel entities
  = Ok (get_change_order nodes entities).
Proof.
  intros Hfuel. unfold get_change_order, get_change_order_fuel.
  destruct counting_total as ([graph in_degree] & -> & Hg & Hd & Hrange).
  simpl in *. rewrite ready_queue; [|intros e He; rewrite Hd; set_solver].
  simpl.
  destruct (kahn_total graph (change_order_fuel entities) in_degree
              (filter (λ e, in_degree !! e = Some 0%Z) entities) [])
    as [out Hout].
  { intros d l x Hl Hx. rewrite Hd. apply elem_of_list_to_set. eauto. }
  { unfold change_order_fuel.
    pose proof (length_filter (λ e, in_degree !! e = Some 0%Z) entities).
    assert (pos_count in_degree ≤ length entities).
    { unfold pos_count. etrans; [apply map_size_filter|].
      rewrite <- size_dom, Hd. apply size_list_to_set_le. }
    lia. }
  rewrite (kahn_fuel_mono _ _ _ _ _ _ _ Hout Hfuel), Hout. simpl.
  by case_decide.
Qed.
End change_order_total.

Lemma filter_snoc {A} (P : A → Prop) `{∀ x, Decision (P x)} l x :
  filter P (l ++ [x]) = filter P l ++ (if decide (P x) then [x] else []).
Proof. rewrite filter_app, filter_cons, filter_nil. by destruct (decide _). Qed.

Section change_order_counting.
Import DependencyGraph.
Variable nodes : gmap string EntityNode.
Variable entities : list string.
Hypothesis entities_nodup : NoDup entities.

Lemma in_set_dependencies_elem e d :
  d ∈ in_set_dependencies nodes entities e
  ↔ d ∈ entities ∧ ∃ node, nodes !! e = Some node ∧ d ∈ dependencies node.
Proof.
  unfold in_set_dependencies. destruct (nodes !! e) as [node|].
  - rewrite list_elem_of_filter, elem_of_elements. naive_solver.
  - split; [by intros ?%elem_of_nil|naive_solver].
Qed.

Lemma in_set_dependencies_nodup e :
  NoDup (in_set_dependencies nodes entities e).
Proof.
  unfold in_set_dependencies. destruct (nodes !! e) as [node|].
  - apply NoDup_filter, NoDup_elements.
  - apply NoDup_nil_2.
Qed.

Lemma depends_in_elem e d :
  depends_in nodes entities e d
  ↔ e ∈ entities ∧ d ∈ in_set_dependencies nodes entities e.
Proof. unfold depends_in. rewrite in_set_dependencies_elem. naive_solver. Qed.

(** The inner loop of the counting phase, for one id [x] not counted yet. *)
Lemma count_edges_spec x node seen st :
  nodes !! x = Some node → x ∈ entities → x ∉ seen →
  counted nodes entities seen st →
  ∃ st', for_each (count_edge entities x) (elements (dependencies node)) st
         = Ok st'
         ∧ counted nodes entities (seen ++ [x]) st'.
Proof.
  intros Hnode Hx Hfresh [Hgraph Hdeg].
  destruct (for_each_prefix
    (λ done st',
       (∀ d, d ∈ entities →
          st'.1 !! d
          = Some (filter (λ e, d ∈ in_set_dependencies nodes entities e) seen
                  ++ (if decide (d ∈ done) then [x] else [])))
       ∧ st'.2 !! x
         = Some (Z.of_nat (length (filter (λ d, d ∈ entities) done)))
       ∧ (∀ e, e ∈ entities → e ≠ x → st'.2 !! e = st.2 !! e))
    (count_edge entities x) (elements (dependencies node)) st)
    as (st' & Hrun & Hg' & Hx' & Hothers).
  - split_and!.
    + intros d Hd. rewrite Hgraph by done. simpl. by rewrite app_nil_r.
    + rewrite Hdeg by done. by rewrite decide_False.
    + done.
  - intros done dep todo [graph in_degree] Hsplit (Hg' & Hx' & Hothers).
    simpl in *.
    assert (dep ∉ done) as Hdep.
    { pose proof (NoDup_elements (dependencies node)) as Hnd.
      rewrite Hsplit in Hnd. apply NoDup_app in Hnd as (_ & Hnd & _).
      intros Hin. apply (Hnd dep Hin). left. }
    unfold count_edge. simpl. case_decide as Hin.
    + rewrite Hg', Hx' by done. rewrite decide_False by done. simpl.
      eexists. split; [done|]. simpl. split_and!.
      * intros d Hd. destruct (decide (dep = d)) as [->|Hne].
        -- rewrite lookup_insert_eq, app_nil_r.
           rewrite decide_True by set_solver. done.
        -- rewrite lookup_insert_ne, Hg' by done. do 2 f_equal.
           repeat case_decide; set_solver.
      * rewrite lookup_insert_eq, filter_snoc, decide_True by done.
        rewrite length_app. simpl. f_equal. lia.
      * intros e He Hne. rewrite lookup_insert_ne by done. by apply Hothers.
    + eexists. split; [done|]. simpl. split_and!.
      * intros d Hd. rewrite Hg' by done. do 2 f_equal.
        repeat case_decide; set_solver.
      * rewrite filter_snoc, decide_False, app_nil_r by done. done.
      * done.
  - exists st'. split; [done|]. split.
    + intros d Hd. rewrite Hg', filter_snoc by done. do 2 f_equal.
      assert (d ∈ elements (dependencies node)
              ↔ d ∈ in_set_dependencies nodes entities x) as Hiff.
      { rewrite in_set_dependencies_elem, elem_of_elements. naive_solver. }
      repeat case_decide; tauto.
    + intros e He. destruct (decide (e = x)) as [->|Hne].
      * rewrite Hx', decide_True by set_solver.
        unfold in_set_dependencies. by rewrite Hnode.
      * rewrite Hothers, Hdeg by done. repeat case_decide; set_solver.
Qed.

Lemma counting_spec :
  ∃ st, for_each (count_entity nodes entities) entities
          (init_graph entities, init_in_degree entities) = Ok st
        ∧ (∀ d, d ∈ entities →
             st.1 !! d = Some (in_set_dependents nodes entities d))
        ∧ (∀ e, e ∈ entities →
             st.2 !! e
             = Some (Z.of_nat (length (in_set_dependencies nodes entities e)))).
Proof.
  destruct (for_each_prefix (counted nodes entities)
              (count_entity nodes entities) entities
              (init_graph entities, init_in_degree entities))
    as (st & Hrun & Hgraph & Hdeg).
  - destruct (init_well_keyed entities) as (Hg & Hd & _). simpl in *.
    split; simpl.
    + intros d Hd'.
      assert (is_Some (init_graph entities !! d)) as [l Hl]
        by (apply elem_of_dom; rewrite Hg; set_solver).
      rewrite Hl. unfold init_graph in Hl.
      apply foldl_insert_lookup in Hl as [->|Hl]; [done|].
      by rewrite lookup_empty in Hl.
    + intros e He.
      assert (is_Some (init_in_degree entities !! e)) as [z Hz]
        by (apply elem_of_dom; rewrite Hd; set_solver).
      rewrite Hz. unfold init_in_degree in Hz.
      apply foldl_insert_lookup in Hz as [->|Hz]; [done|].
      by rewrite lookup_empty in Hz.
  - intros seen x todo st Hsplit Hcounted.
    assert (x ∈ entities) as Hx by (rewrite Hsplit; set_solver).
    assert (x ∉ seen) as Hfresh.
    { pose proof entities_nodup as Hnd. rewrite Hsplit in Hnd.
      apply NoDup_app in Hnd as (_ & Hnd & _).
      intros Hin. apply (Hnd x Hin). left. }
    unfold count_entity. destruct (nodes !! x) as [node|] eqn:Hnode.
    + by apply count_edges_spec.
    + exists st. split; [done|]. destruct Hcounted as [Hgraph Hdeg].
      assert (in_set_dependencies nodes entities x = []) as Hnone
        by (unfold in_set_dependencies; by rewrite Hnode).
      split.
      * intros d Hd. rewrite Hgraph, filter_snoc by done.
        rewrite decide_False, app_nil_r; [done|].
        rewrite Hnone. by intros ?%elem_of_nil.
      * intros e He. rewrite Hdeg by done.
        destruct (decide (e = x)) as [->|Hne].
        -- rewrite decide_False, decide_True by set_solver.
           by rewrite Hnone.
        -- repeat case_decide; set_solver.
  - exists st. split; [done|]. split.
    + intros d Hd. by rewrite Hgraph.
    + intros e He. rewrite Hdeg by done. by rewrite decide_True.
Qed.
End change_order_counting.

(** The loop [for dependent in graph[current]] over ids without repeats:
    every one of them loses one unit of in-degree, and those that reach zero
    join the queue in the order of the list. *)
Lemma release_all_spec xs (in_degree : gmap string Z) queue :
  NoDup xs → (∀ x, x ∈ xs → is_Some (in_degree !! x)) →
  ∃ in_degree',
    for_each DependencyGraph.release xs (in_degree, queue)
    = Ok (in_degree', queue ++ filter (λ x, in_degree !! x = Some 1%Z) xs)
    ∧ ∀ x, in_degree' !! x
           = if decide (x ∈ xs) then (λ d, (d - 1)%Z) <$> in_degree !! x
             else in_degree !! x.
Proof.
  intros Hnd Hkeys.
  destruct (for_each_prefix
    (λ done st,
       st.2 = queue ++ filter (λ x, in_degree !! x = Some 1%Z) done
       ∧ ∀ x, st.1 !! x
              = if decide (x ∈ done) then (λ d, (d - 1)%Z) <$> in_degree !! x
                else in_degree !! x)
    DependencyGraph.release xs (in_degree, queue))
    as ([deg' q'] & Hrun & Hq & Hdeg).
  - split; simpl; [by rewrite app_nil_r|done].
  - intros done x todo [deg1 q1] Hsplit [Hq Hdeg]. simpl in *.
    assert (x ∉ done) as Hfresh.
    { rewrite Hsplit in Hnd. apply NoDup_app in Hnd as (_ & Hnd & _).
      intros Hin. apply (Hnd x Hin). left. }
    destruct (Hkeys x) as [d Hd]; [rewrite Hsplit; set_solver|].
    unfold DependencyGraph.release. simpl.
    rewrite Hdeg, decide_False, Hd by done. simpl.
    eexists. split; [done|]. simpl. split.
    + rewrite Hq, filter_snoc, Hd, <- app_assoc.
      destruct (decide (d - 1 = 0)%Z) as [Hz|Hz],
               (decide (Some d = Some 1%Z)) as [Ho|Ho];
        rewrite ?app_nil_r; try done; exfalso.
      * apply Ho. f_equal. lia.
      * injection Ho as ->. lia.
    + intros y. destruct (decide (x = y)) as [->|Hne].
      * rewrite lookup_insert_eq, decide_True, Hd by set_solver. done.
      * rewrite lookup_insert_ne, Hdeg by done.
        repeat case_decide; set_solver.
  - simpl in *. subst q'. eauto.
Qed.

(** One more id in [output] takes at most itself out of a duplicate-free
    list of pending ids. *)
Lemma pending_snoc (output l : list string) c :
  NoDup l → c ∉ output →
  length (filter (λ d, d ∉ output) l)
  = length (filter (λ d, d ∉ output ++ [c]) l)
    + (if decide (c ∈ l) then 1 else 0).
Proof.
  intros Hnd Hc. induction Hnd as [|a l Ha Hnd IH]; [done|].
  rewrite !filter_cons. destruct (decide (a = c)) as [->|Hne].
  - rewrite decide_True, (decide_False (P := c ∉ output ++ [c])),
      (decide_True (P := c ∈ c :: l)) by set_solver.
    rewrite decide_False in IH by done. simpl. lia.
  - assert (a ∉ output ↔ a ∉ output ++ [c]) as Hiff by set_solver.
    assert (c ∈ a :: l ↔ c ∈ l) as Hiff' by set_solver.
    repeat case_decide; simpl; try tauto; lia.
Qed.

Lemma max_list_le_bound (ns : list nat) m :
  (∀ n, n ∈ ns → n ≤ m) → max_list ns ≤ m.
Proof.
  induction ns as [|n ns IH]; intros Hall; simpl; [lia|].
  assert (n ≤ m) by (apply Hall; left).
  assert (max_list ns ≤ m) by (apply IH; intros; apply Hall; by right).
  lia.
Qed.

Section precedes_facts.
Import DependencyGraph.

Lemma precedes_app_l l k d e : precedes l d e → precedes (l ++ k) d e.
Proof.
  intros (i & j & Hj & Hi & Hlt). exists i, j.
  split_and!; [by apply lookup_app_l_Some..|done].
Qed.

Lemma precedes_snoc l d c : d ∈ l → precedes (l ++ [c]) d c.
Proof.
  intros [j Hj]%list_elem_of_lookup. exists (length l), j. split_and!.
  - by apply lookup_app_l_Some.
  - by rewrite list_lookup_middle.
  - by eapply lookup_lt_Some.
Qed.

Lemma precedes_elem l d e : precedes l d e → d ∈ l ∧ e ∈ l.
Proof.
  intros (i & j & Hj & Hi & _). split; apply list_elem_of_lookup; eauto.
Qed.

Lemma precedes_trans l a b c :
  NoDup l → precedes l a b → precedes l b c → precedes l a c.
Proof.
  intros Hnd (i & j & Hj & Hi & Hlt) (i' & j' & Hj' & Hi' & Hlt').
  assert (i = j') as -> by by eapply NoDup_lookup.
  exists i', j. split_and!; [done..|lia].
Qed.

Lemma precedes_irrefl l a : NoDup l → ¬ precedes l a a.
Proof.
  intros Hnd (i & j & Hj & Hi & Hlt).
  assert (i = j) by by eapply NoDup_lookup. lia.
Qed.
Lemma position_app_l l k x : x ∈ l → position (l ++ k) x = position l x.
Proof.
  induction l as [|y l IH]; intros Hx; [by apply elem_of_nil in Hx|].
  simpl. case_decide; [done|]. f_equal. apply IH. set_solver.
Qed.

Lemma position_fresh l x : x ∉ l → position (l ++ [x]) x = length l.
Proof.
  induction l as [|y l IH]; intros Hx; simpl.
  - by rewrite decide_True.
  - rewrite decide_False by set_solver. f_equal. apply IH. set_solver.
Qed.

Lemma position_lt l x : x ∈ l → position l x < length l.
Proof.
  induction l as [|y l IH]; intros Hx; [by apply elem_of_nil in Hx|].
  simpl. case_decide; [lia|].
  assert (x ∈ l) by set_solver. apply IH in H0. lia.
Qed.

(** A sublist of a list without repeats keeps the order of positions. *)
Lemma sublist_position l' l i j a b :
  NoDup l → l' `sublist_of` l →
  l' !! i = Some a → l' !! j = Some b → i < j →
  position l a < position l b.
Proof.
  intros Hnd Hsub. revert i j.
  induction Hsub as [|x l1 l2 Hsub IH|x l1 l2 Hsub IH]; intros i j Hi Hj Hlt.
  - done.
  - apply NoDup_cons in Hnd as [Hx Hnd].
    destruct j as [|j]; [lia|]. simpl in Hj.
    assert (b ∈ l2) as Hb
      by (eapply elem_of_sublist; [|done]; by eapply list_elem_of_lookup_2).
    destruct i as [|i]; simpl in *.
    + injection Hi as ->. rewrite decide_True by done.
      rewrite decide_False by (intros ->; done). lia.
    + assert (a ∈ l2) as Ha
        by (eapply elem_of_sublist; [|done];
            by eapply list_elem_of_lookup_2).
      rewrite !decide_False by (intros ->; done).
      apply Arith_base.lt_n_S_stt. eapply IH; [done..|lia].
  - apply NoDup_cons in Hnd as [Hx Hnd].
    assert (a ∈ l2) as Ha
      by (eapply elem_of_sublist; [|done]; by eapply list_elem_of_lookup_2).
    assert (b ∈ l2) as Hb
      by (eapply elem_of_sublist; [|done]; by eapply list_elem_of_lookup_2).
    simpl. rewrite !decide_False by (intros ->; done).
    apply Arith_base.lt_n_S_stt. by eapply IH.
Qed.
End precedes_facts.

Section change_order_kahn.
Import DependencyGraph.
Variable nodes : gmap string EntityNode.
Variable entities : list string.
Variable graph : gmap string (list string).
Variable queue0 : list string.
Hypothesis entities_nodup : NoDup entities.
Hypothesis graph_dependents :
  ∀ d, d ∈ entities → graph !! d = Some (in_set_dependents nodes entities d).

Lemma remaining_snoc output c e :
  c ∉ output →
  length (remaining nodes entities output e)
  = length (remaining nodes entities (output ++ [c]) e)
    + (if decide (c ∈ in_set_dependencies nodes entities e) then 1 else 0).
Proof.
  intros Hc. unfold remaining.
  by apply pending_snoc; [apply in_set_dependencies_nodup|].
Qed.

Lemma remaining_nil output e d :
  remaining nodes entities output e = [] →
  d ∈ in_set_dependencies nodes entities e → d ∈ output.
Proof.
  intros Hnil Hd. destruct (decide (d ∈ output)) as [|Hout]; [done|].
  assert (d ∈ remaining nodes entities output e) as Hin
    by (apply list_elem_of_filter; done).
  rewrite Hnil in Hin. by apply elem_of_nil in Hin.
Qed.

Lemma ready_time_stable output more e :
  (∀ d, d ∈ in_set_dependencies nodes entities e → d ∈ output) →
  ready_time nodes entities (output ++ more) e
  = ready_time nodes entities output e.
Proof.
  intros Hout. unfold ready_time. f_equal. apply list_fmap_ext.
  intros i d Hd. f_equal. apply position_app_l, Hout.
  by eapply list_elem_of_lookup_2.
Qed.

Lemma ready_time_released output c e :
  c ∉ output → c ∈ in_set_dependencies nodes entities e →
  (∀ d, d ∈ in_set_dependencies nodes entities e → d ∈ output ++ [c]) →
  ready_time nodes entities (output ++ [c]) e = S (length output).
Proof.
  intros Hc Hdep Hall. unfold ready_time. apply Nat.le_antisymm.
  - apply max_list_le_bound. intros n (d & -> & Hd)%list_elem_of_fmap.
    apply Hall in Hd as Hin.
    apply position_lt in Hin. rewrite length_app in Hin. simpl in Hin. lia.
  - apply max_list_elem_of_le, list_elem_of_fmap.
    exists c. by rewrite position_fresh.
Qed.

Lemma kahn_step in_degree current rest output :
  kahn_invariant nodes entities queue0 in_degree (current :: rest) output →
  ∃ st, for_each release (default [] (graph !! current)) (in_degree, rest)
        = Ok st
        ∧ kahn_invariant nodes entities queue0 st.1 st.2 (output ++ [current]).
Proof.
  intros (Hnd & Hids & Hdeg & Hready & Horder & Hprefix & Hbound & Hfifo).
  assert (current ∈ entities) as Hcur by (apply Hids; set_solver).
  assert (current ∉ output) as Hfresh.
  { apply NoDup_app in Hnd as (_ & Hnd & _). intros Hin.
    apply (Hnd current Hin). left. }
  rewrite graph_dependents by done. simpl.
  set (xs := in_set_dependents nodes entities current).
  assert (∀ x, x ∈ xs ↔ x ∈ entities
                        ∧ current ∈ in_set_dependencies nodes entities x)
    as Hxs.
  { intros x. unfold xs, in_set_dependents. rewrite list_elem_of_filter.
    tauto. }
  destruct (release_all_spec xs in_degree rest) as (deg' & -> & Hdeg').
  { by apply NoDup_filter. }
  { intros x [Hx _]%Hxs. rewrite Hdeg by done. eauto. }
  eexists. split; [done|]. simpl.
  set (newly := filter (λ x, in_degree !! x = Some 1%Z) xs).
  assert (∀ x, x ∈ newly ↔
            x ∈ entities
            ∧ current ∈ in_set_dependencies nodes entities x
            ∧ remaining nodes entities (output ++ [current]) x = []) as Hnew.
  { intros x. unfold newly. rewrite list_elem_of_filter, Hxs. split.
    - intros (Hone & Hx & Hdep). split_and!; [done..|].
      rewrite Hdeg in Hone by done.
      pose proof (remaining_snoc output current x Hfresh) as Hlen.
      rewrite decide_True in Hlen by done.
      apply length_zero_iff_nil. injection Hone as Hone. lia.
    - intros (Hx & Hdep & Hnil). split_and!; [|done..].
      rewrite Hdeg by done.
      pose proof (remaining_snoc output current x Hfresh) as Hlen.
      rewrite decide_True, Hnil in Hlen by done. simpl in Hlen.
      by rewrite Hlen. }
  assert (∀ e, e ∈ output ++ current :: rest →
            ready_time nodes entities (output ++ [current]) e
            = ready_time nodes entities output e) as Hold_ready.
  { intros e He. apply ready_time_stable. intros d Hd.
    eapply remaining_nil; [|exact Hd]. apply Hready; [by apply Hids|done]. }
  assert (∀ e, e ∈ entities
               ∧ current ∈ in_set_dependencies nodes entities e
               ∧ remaining nodes entities (output ++ [current]) e = [] →
            ready_time nodes entities (output ++ [current]) e
            = S (length output)) as Hnew_ready.
  { intros e (He & Hdep & Hnil). apply ready_time_released; [done..|].
    intros d Hd. by eapply remaining_nil. }
  assert ((output ++ [current]) ++ rest ++ newly
          = (output ++ current :: rest) ++ newly) as Hshape
    by by rewrite <- !app_assoc.
  unfold kahn_invariant. rewrite Hshape. split_and!.
  - apply NoDup_app. split_and!; [done| |by apply NoDup_filter, NoDup_filter].
    intros x Hold (Hx & Hdep & Hnil)%Hnew.
    apply Hready in Hold; [|done].
    pose proof (remaining_snoc output current x Hfresh) as Hlen.
    rewrite decide_True, Hold in Hlen by done. simpl in Hlen. lia.
  - intros x [Hx|Hx%Hnew]%elem_of_app; [by apply Hids|tauto].
  - intros e He. rewrite Hdeg', Hdeg by done.
    pose proof (remaining_snoc output current e Hfresh) as Hlen.
    destruct (decide (e ∈ xs)) as [Hin|Hout]; simpl; f_equal.
    + rewrite decide_True in Hlen by by apply Hxs. lia.
    + rewrite decide_False in Hlen by (rewrite Hxs in Hout; tauto). lia.
  - intros e He.
    pose proof (remaining_snoc output current e Hfresh) as Hlen.
    rewrite elem_of_app, Hnew, (Hready e He). split.
    + intros [Hnil|(_ & _ & Hnil)]; [|done].
      rewrite Hnil in Hlen. simpl in Hlen.
      apply length_zero_iff_nil. lia.
    + intros Hnil. rewrite Hnil in Hlen. simpl in Hlen.
      destruct (decide (current ∈ in_set_dependencies nodes entities e));
        [by right|left].
      apply length_zero_iff_nil. lia.
  - intros e d [He| ->%list_elem_of_singleton]%elem_of_app Hd.
    + by apply precedes_app_l, Horder.
    + apply precedes_snoc. eapply remaining_nil; [|exact Hd].
      apply Hready; [done|set_solver].
  - by apply prefix_app_r.
  - intros e [He|He%Hnew]%elem_of_app; rewrite length_app; simpl.
    + rewrite Hold_ready by done. apply Hbound in He. lia.
    + rewrite Hnew_ready by done. lia.
  - intros i j e e' Hi Hj Hlt. unfold fifo_before.
    apply lookup_app_Some in Hj as [Hj|[Hlen Hj]].
    + assert ((output ++ current :: rest) !! i = Some e) as Hi'.
      { apply lookup_app_Some in Hi as [Hi|[Hge _]]; [done|].
        apply lookup_lt_Some in Hj. lia. }
      rewrite !Hold_ready by by eapply list_elem_of_lookup_2.
      by apply (Hfifo i j).
    + assert (e' ∈ newly) as He' by by eapply list_elem_of_lookup_2.
      apply Hnew in He'. rewrite (Hnew_ready e') by done.
      apply lookup_app_Some in Hi as [Hi|[Hlen' Hi]].
      * left. apply list_elem_of_lookup_2 in Hi as He.
        rewrite Hold_ready by done. apply Hbound in He. lia.
      * right. assert (e ∈ newly) as He by by eapply list_elem_of_lookup_2.
        apply Hnew in He. rewrite (Hnew_ready e) by done. split; [done|].
        eapply (sublist_position newly entities); [done| |done..|lia].
        unfold newly, xs, in_set_dependents.
        etrans; apply sublist_filter.
Qed.

Lemma kahn_spec fuel in_degree queue output out :
  kahn_invariant nodes entities queue0 in_degree queue output →
  kahn graph fuel in_degree queue output = Ok out →
  ∃ in_degree', kahn_invariant nodes entities queue0 in_degree' [] out.
Proof.
  revert in_degree queue output.
  induction fuel as [|fuel IH]; intros in_degree queue output Hinv Hrun;
    [done|].
  destruct queue as [|current rest]; simpl in Hrun.
  - injection Hrun as <-. eauto.
  - destruct (kahn_step _ _ _ _ Hinv) as ([deg' q'] & Hstep & Hinv').
    rewrite Hstep in Hrun. simpl in *. by eapply IH.
Qed.
End change_order_kahn.

Lemma filter_ext_in {A} (P1 P2 : A → Prop)
    `{!∀ x, Decision (P1 x), !∀ x, Decision (P2 x)} (l : list A) :
  (∀ x, x ∈ l → P1 x ↔ P2 x) → filter P1 l = filter P2 l.
Proof.
  induction l as [|a l IH]; intros Hiff; [done|].
  rewrite !filter_cons, IH by (intros; apply Hiff; by right).
  assert (P1 a ↔ P2 a) by (apply Hiff; left).
  repeat case_decide; tauto.
Qed.

Lemma filter_all {A} (P : A → Prop) `{!∀ x, Decision (P x)} (l : list A) :
  (∀ x, x ∈ l → P x) → filter P l = l.
Proof.
  induction l as [|a l IH]; intros Hall; [done|].
  rewrite filter_cons, decide_True, IH; [done|..].
  - intros x Hx. apply Hall. by right.
  - apply Hall. left.
Qed.

(** In a finite non-empty set in which every member reaches a member, some
    member reaches itself. *)
Lemma finite_cycle (R : string → string → Prop) (X : gset string) :
  X ≠ ∅ → (∀ x, x ∈ X → ∃ y, y ∈ X ∧ tc R x y) → ∃ x, tc R x x.
Proof.
  remember (size X) as n eqn:Hn. revert X Hn.
  induction n as [n IH] using lt_wf_ind. intros X -> Hne Hsucc.
  destruct (set_choose_L X Hne) as [x Hx].
  destruct (Hsucc x Hx) as (y & Hy & Hxy).
  destruct (decide (y = x)) as [->|Hyx]; [by exists x|].
  assert (size (X ∖ {[x]}) < size X) as Hlt
    by by apply subset_size, subset_difference_elem_of.
  apply (IH _ Hlt (X ∖ {[x]}) eq_refl).
  - set_solver.
  - intros z Hz. destruct (Hsucc z) as (w & Hw & Hzw); [set_solver|].
    destruct (decide (w = x)) as [->|Hwx].
    + exists y. split; [set_solver|]. by etrans.
    + exists w. split; [set_solver|done].
Qed.

Section change_order_nodup.
Import DependencyGraph.
Variable nodes : gmap string EntityNode.
Variable entities : list string.
Hypothesis entities_nodup : NoDup entities.

Lemma change_order_run :
  ∃ out in_degree,
    get_change_order nodes entities
    = (if decide (length out ≠ length entities) then entities else out)
    ∧ kahn_invariant nodes entities
        (filter (λ e, in_set_dependencies nodes entities e = []) entities)
        in_degree [] out.
Proof.
  destruct (counting_spec nodes entities entities_nodup)
    as ([graph in_degree] & Hcount & Hgraph & Hdeg). simpl in *.
  pose proof (get_change_order_total nodes entities
                (change_order_fuel entities) (le_n _)) as Htotal.
  unfold get_change_order_fuel in Htotal. rewrite Hcount in Htotal.
  simpl in Htotal. rewrite ready_queue in Htotal.
  2:{ intros e He. apply elem_of_dom. rewrite Hdeg by done. eauto. }
  simpl in Htotal.
  rewrite (filter_ext_in _
             (λ e, in_set_dependencies nodes entities e = []) entities)
    in Htotal.
  2:{ intros e He. rewrite Hdeg by done. split.
      - intros [= Hlen]. apply length_zero_iff_nil. lia.
      - by intros ->. }
  destruct (kahn graph _ in_degree _ []) as [out| |] eqn:Hrun;
    simpl in Htotal; [|done..].
  assert (∀ e, remaining nodes entities [] e
               = in_set_dependencies nodes entities e) as Hall.
  { intros e. apply filter_all. intros d _. by intros ?%elem_of_nil. }
  eapply kahn_spec in Hrun as [in_degree' Hinv]; [|done|done|].
  - exists out, in_degree'. split; [|done].
    by case_decide; injection Htotal as <-.
  - unfold kahn_invariant. simpl. split_and!.
    + by apply NoDup_filter.
    + by intros x [_ ?]%list_elem_of_filter.
    + intros e He. by rewrite Hall, Hdeg.
    + intros e He. rewrite Hall, list_elem_of_filter. tauto.
    + by intros e d ?%elem_of_nil.
    + done.
    + intros e [Hnone _]%list_elem_of_filter. simpl in Hnone.
      unfold ready_time. by rewrite Hnone.
    + intros i j e e' Hi Hj Hlt. right.
      assert (∀ x, x ∈ filter (λ e, in_set_dependencies nodes entities e = [])
                         entities →
                   ready_time nodes entities [] x = 0) as Hzero.
      { intros x [Hnone _]%list_elem_of_filter. simpl in Hnone.
        unfold ready_time. by rewrite Hnone. }
      rewrite !Hzero by by eapply list_elem_of_lookup_2.
      split; [done|].
      eapply (sublist_position
                (filter (λ e, in_set_dependencies nodes entities e = [])
                   entities) entities); [done|apply sublist_filter|done..].
Qed.

(** X1. For ids without repeats.  If the dependencies among the ids have no
    cycle, the answer is a permutation of the ids in which every id comes
    after each of its in-set dependencies; the ids that have no in-set
    dependency lead it in their input order, and throughout it ids stand in
    the order in which they became ready (all their in-set dependencies
    out), ids that became ready together in their input order.  If the
    dependencies have a cycle, the answer is the input itself. *)
Theorem change_order_without_repeats :
  (acyclic_in nodes entities →
     get_change_order nodes entities ≡ₚ entities
     ∧ (∀ e d, depends_in nodes entities e d →
          precedes (get_change_order nodes entities) d e)
     ∧ filter (λ e, in_set_dependencies nodes entities e = []) entities
         `prefix_of` get_change_order nodes entities
     ∧ (∀ i j e e',
          get_change_order nodes entities !! i = Some e →
          get_change_order nodes entities !! j = Some e' → i < j →
          fifo_before nodes entities (get_change_order nodes entities) e e'))
  ∧ ((∃ e, tc (depends_in nodes entities) e e) →
       get_change_order nodes entities = entities).
Proof.
  destruct change_order_run
    as (out & in_degree & -> & Hnd & Hids & _ & Hready & Horder & Hprefix
        & _ & Hfifo).
  rewrite app_nil_r in *.
  assert (out ⊆+ entities) as Hsub by by apply NoDup_submseteq.
  split.
  - intros Hacyclic.
    destruct (decide (length out ≠ length entities)) as [Hshort|Hfull].
    + exfalso.
      set (X := list_to_set entities ∖ list_to_set out : gset string).
      destruct (finite_cycle (depends_in nodes entities) X) as [e He].
      * intros Hempty. apply Hshort.
        apply Permutation_length, submseteq_length_Permutation; [done|].
        apply submseteq_length, NoDup_submseteq; [done|].
        intros x Hx. destruct (decide (x ∈ out)); [done|]. set_solver.
      * intros x [Hx Hout]%elem_of_difference.
        rewrite elem_of_list_to_set in Hx, Hout.
        destruct (remaining nodes entities out x) as [|d ds] eqn:Hrem.
        { exfalso. by apply Hout, Hready. }
        assert (d ∈ remaining nodes entities out x) as Hd
          by (rewrite Hrem; left).
        apply list_elem_of_filter in Hd as [Hdout Hd].
        exists d. split.
        -- apply elem_of_difference. rewrite !elem_of_list_to_set.
           split; [|done].
           by apply in_set_dependencies_elem in Hd as [? _].
        -- apply tc_once. by apply depends_in_elem.
      * by apply (Hacyclic e).
    + assert (out ≡ₚ entities) as Hperm.
      { apply submseteq_length_Permutation; [done|lia]. }
      split_and!; [done| |done|done].
      intros e d [He Hd]%depends_in_elem. apply Horder; [|done].
      by rewrite Hperm.
  - intros [e Hcycle]. case_decide as Hlen; [done|].
    exfalso.
    assert (out ≡ₚ entities) as Hperm.
    { apply submseteq_length_Permutation; [done|lia]. }
    assert (∀ a b, tc (depends_in nodes entities) a b → precedes out b a)
      as Hbefore.
    { intros a b Hab.
      induction Hab as [a b Hstep|a b c Hstep _ IH].
      - apply depends_in_elem in Hstep as [Ha Hb].
        apply Horder; [by rewrite Hperm|done].
      - apply depends_in_elem in Hstep as [Ha Hb].
        eapply precedes_trans; [done|exact IH|].
        apply Horder; [by rewrite Hperm|done]. }
    by apply (precedes_irrefl out e Hnd), Hbefore.
Qed.
End change_order_nodup.

(** C1 at a list that names an id twice.  [b] depends on [a] and nothing
    else is related, so the subgraph induced on [b; b; a] has no cycle; the
    answer is nevertheless the input itself, in which [b] stands before its
    dependency [a]. *)
Theorem change_order_duplicate_ids :
  let index := Examples.index_of Examples.a_then_b in
  let ids := ["b"; "b"; "a"] in
  DependencyGraph.build_from_specs (Some Examples.a_then_b) = Ok index
  ∧ DependencyGraph.acyclic_in index ids
  ∧ DependencyGraph.depends_in index ids "b" "a"
  ∧ DependencyGraph.get_change_order_fuel index
      (DependencyGraph.change_order_fuel ids) ids = Ok ["b"; "b"; "a"]
  ∧ DependencyGraph.get_change_order index ids = ["b"; "b"; "a"]
  ∧ ¬ DependencyGraph.precedes
        (DependencyGraph.get_change_order index ids) "a" "b".
Proof.
  intros index ids.
  assert (∀ e d, DependencyGraph.depends_in index ids e d →
                 e = "b" ∧ d = "a") as Honly.
  { intros e d (He & Hd & node & Hnode & Hdep).
    assert (index !! "b"
            = Some (DependencyGraph.mkEntityNode "b" "b" {["a"]} ∅)) as Hb
      by by vm_compute.
    assert (index !! "a"
            = Some (DependencyGraph.mkEntityNode "a" "a" ∅ {["b"]})) as Ha
      by by vm_compute.
    assert (e = "b" ∨ e = "a") as [-> | ->] by set_solver.
    - rewrite Hb in Hnode. injection Hnode as <-. set_solver.
    - rewrite Ha in Hnode. injection Hnode as <-. set_solver. }
  split_and!.
  - by vm_compute.
  - intros e Hcycle. inversion Hcycle as [? ? Hstep|? y ? Hstep Hrest]; subst.
    + by destruct (Honly _ _ Hstep) as [-> ?].
    + destruct (Honly _ _ Hstep) as [-> ->].
      inversion Hrest as [? ? Hstep'|? ? ? Hstep' _]; subst;
        by destruct (Honly _ _ Hstep').
  - split_and!; [set_solver..|]. eexists. split; [by vm_compute|set_solver].
  - by vm_compute.
  - by vm_compute.
  - replace (DependencyGraph.get_change_order index ids)
      with ["b"; "b"; "a"] by by vm_compute.
    intros (i & j & Hj & Hi & Hlt).
    destruct j as [|[|[|j]]]; simplify_eq/=.
    destruct i as [|[|[|i]]]; simplify_eq/=; lia.
Qed.

(** In the order/customer index the only dependency is that of [order] on
    [customer]. *)
Lemma order_customer_acyclic :
  DependencyGraph.acyclic_in (Examples.index_of Examples.order_customer)
    ["order"; "customer"].
Proof.
  set (index := Examples.index_of Examples.order_customer).
  set (ids := ["order"; "customer"]).
  assert (∀ e d, DependencyGraph.depends_in index ids e d →
                 e = "order" ∧ d = "customer") as Honly.
  { intros e d (He & Hd & node & Hnode & Hdep).
    assert (index !! "order"
            = Some (DependencyGraph.mkEntityNode "order" "order"
                      {["customer"]} ∅)) as Ho by by vm_compute.
    assert (index !! "customer"
            = Some (DependencyGraph.mkEntityNode "customer" "customer"
                      ∅ {["order"]})) as Hc by by vm_compute.
    assert (e = "order" ∨ e = "customer") as [-> | ->] by set_solver.
    - rewrite Ho in Hnode. injection Hnode as <-. set_solver.
    - rewrite Hc in Hnode. injection Hnode as <-. set_solver. }
  intros e Hcycle. inversion Hcycle as [? ? Hstep|? y ? Hstep Hrest]; subst.
  - by destruct (Honly _ _ Hstep) as [-> ?].
  - destruct (Honly _ _ Hstep) as [-> ->].
    inversion Hrest as [? ? Hstep'|? ? ? Hstep' _]; subst;
      by destruct (Honly _ _ Hstep').
Qed.

Lemma order_depends_on_customer :
  DependencyGraph.depends_in (Examples.index_of Examples.order_customer)
    ["order"; "customer"] "order" "customer".
Proof.
  split_and!.
  - apply list_elem_of_here.
  - apply list_elem_of_further, list_elem_of_here.
  - exists (DependencyGraph.mkEntityNode "order" "order" {["customer"]} ∅).
    split; [by vm_compute|]. simpl. by apply elem_of_singleton.
Qed.

Lemma change_order_without_repeats_witness :
  DependencyGraph.get_change_order
    (Examples.index_of Examples.order_customer) ["order"; "customer"]
  ≡ₚ ["order"; "customer"]
  ∧ DependencyGraph.precedes
      (DependencyGraph.get_change_order
         (Examples.index_of Examples.order_customer) ["order"; "customer"])
      "customer" "order".
Proof.
  assert (NoDup ["order"; "customer"]) as Hnd
    by (apply (bool_decide_unpack _); by vm_compute).
  destruct (change_order_without_repeats
              (Examples.index_of Examples.order_customer)
              ["order"; "customer"] Hnd) as [Hacyclic _].
  destruct (Hacyclic order_customer_acyclic) as (Hperm & Horder & _).
  split; [exact Hperm|]. apply Horder. exact order_depends_on_customer.
Defined.

(** ** The remaining queries *)

Lemma elem_of_rev {A} (l : list A) x : x ∈ rev l ↔ x ∈ l.
Proof. rewrite !list_elem_of_In. symmetry. apply in_rev. Qed.

Section closure_reach.
Import DependencyGraph DependencyQueries.
Variable adj : EntityNode → gset string.
Variable nodes : gmap string EntityNode.

Lemma walk_reach root fuel (visited : gset string) to_visit v :
  walk adj nodes fuel visited to_visit = Ok v →
  (∀ x, x ∈ visited ∨ x ∈ to_visit → rtc (adjacent adj nodes) root x) →
  (∀ a b, a ∈ visited → adjacent adj nodes a b →
     b ∈ visited ∨ b ∈ to_visit) →
  (∀ x, x ∈ v → rtc (adjacent adj nodes) root x)
  ∧ (∀ a b, a ∈ v → adjacent adj nodes a b → b ∈ v)
  ∧ (∀ x, x ∈ visited ∨ x ∈ to_visit → x ∈ v).
Proof.
  revert visited to_visit.
  induction fuel as [|fuel IH]; intros visited to_visit Hrun Hsound Hclosed;
    [done|].
  destruct to_visit as [|current rest]; simpl in Hrun.
  - injection Hrun as <-. split_and!.
    + intros x Hx. apply Hsound. by left.
    + intros a b Ha Hab. destruct (Hclosed a b Ha Hab) as [|Hb]; [done|].
      by apply elem_of_nil in Hb.
    + intros x [Hx|Hx]; [done|by apply elem_of_nil in Hx].
  - destruct (decide (current ∈ visited)) as [Hseen|Hnew].
    + apply IH in Hrun as (Hs & Hc & Hin).
      * split_and!; [done..|].
        intros x [Hx|[->|Hx]%elem_of_cons]; apply Hin; auto.
      * intros x [Hx|Hx]; apply Hsound; [by left|right; by right].
      * intros a b Ha Hab.
        destruct (Hclosed a b Ha Hab) as [|[->|Hb]%elem_of_cons]; auto.
    + assert (rtc (adjacent adj nodes) root current) as Hcur
        by (apply Hsound; right; left).
      destruct (nodes !! current) as [node|] eqn:Hnode.
      * apply IH in Hrun as (Hs & Hc & Hin).
        -- split_and!; [done..|].
           intros x [Hx|[->|Hx]%elem_of_cons]; apply Hin.
           ++ left. apply elem_of_union. by right.
           ++ left. apply elem_of_union. left. by apply elem_of_singleton.
           ++ right. apply elem_of_app. by right.
        -- intros x [[->%elem_of_singleton|Hx]%elem_of_union
                    |[Hx|Hx]%elem_of_app]; [done|apply Hsound; by left| |].
           ++ apply elem_of_rev, list_elem_of_filter in Hx as [_ Hx].
              apply elem_of_elements in Hx.
              eapply rtc_r; [exact Hcur|]. by exists node.
           ++ apply Hsound. right. by right.
        -- intros a b [->%elem_of_singleton|Ha]%elem_of_union Hab.
           ++ destruct Hab as (node' & Hnode' & Hb).
              rewrite Hnode in Hnode'. injection Hnode' as <-.
              destruct (decide (b ∈ {[current]} ∪ visited)) as [|Hfresh];
                [by left|right].
              apply elem_of_app. left.
              apply elem_of_rev, list_elem_of_filter. split; [done|].
              by apply elem_of_elements.
           ++ destruct (Hclosed a b Ha Hab) as [Hb|[->|Hb]%elem_of_cons].
              ** left. apply elem_of_union. by right.
              ** left. apply elem_of_union. left. by apply elem_of_singleton.
              ** right. apply elem_of_app. by right.
      * apply IH in Hrun as (Hs & Hc & Hin).
        -- split_and!; [done..|].
           intros x [Hx|[->|Hx]%elem_of_cons]; apply Hin.
           ++ left. apply elem_of_union. by right.
           ++ left. apply elem_of_union. left. by apply elem_of_singleton.
           ++ by right.
        -- intros x [[->%elem_of_singleton|Hx]%elem_of_union|Hx];
             [done|apply Hsound; by left|apply Hsound; right; by right].
        -- intros a b [->%elem_of_singleton|Ha]%elem_of_union Hab.
           ++ destruct Hab as (node' & Hnode' & _). congruence.
           ++ destruct (Hclosed a b Ha Hab) as [Hb|[->|Hb]%elem_of_cons].
              ** left. apply elem_of_union. by right.
              ** left. apply elem_of_union. left. by apply elem_of_singleton.
              ** by right.
Qed.

Lemma closure_reach entity x :
  entity ∈ dom nodes →
  x ∈ from_ok ∅ (closure adj nodes (walk_fuel adj nodes) entity)
  ↔ x ≠ entity ∧ tc (adjacent adj nodes) entity x.
Proof.
  intros Hknown.
  destruct (closure_enough adj nodes (walk_fuel adj nodes) entity)
    as (v & l & Hlog & _ & _ & ->); [done|].
  rewrite decide_True by done. simpl.
  pose proof (walk_log_erase adj nodes (walk_fuel adj nodes) ∅ [] [entity])
    as Herase.
  rewrite Hlog in Herase. simpl in Herase.
  apply (walk_reach entity) in Herase as (Hsound & Hclosed & Hin).
  - assert (∀ a, a ∈ v → tc (adjacent adj nodes) a x → x ∈ v) as Hall.
    { intros a Ha Hax. revert Ha.
      induction Hax as [a b Hab|a b c Hab _ IH]; intros Ha;
        [by eapply Hclosed|].
      apply IH. by eapply Hclosed. }
    rewrite elem_of_difference, elem_of_singleton. split.
    + intros [Hx Hne]. split; [done|].
      apply Hsound, rtc_tc in Hx. destruct Hx as [Heq|Hx]; [|done].
      by subst.
    + intros [Hne Hx]. split; [|done].
      apply (Hall entity); [|done]. apply Hin. right. left.
  - intros y [Hy| ->%list_elem_of_singleton]; [by apply elem_of_empty in Hy|].
    done.
  - intros a b Ha. by apply elem_of_empty in Ha.
Qed.
End closure_reach.

Section build_facts.
Import DependencyGraph DependencyQueries.

Lemma link_lookup eid target (nodes : gmap string EntityNode) e :
  match nodes !! e with
  | None =>
      alter (add_dependent eid) target
        (alter (add_dependency target) eid nodes) !! e = None
  | Some n =>
      ∃ node,
        alter (add_dependent eid) target
          (alter (add_dependency target) eid nodes) !! e = Some node
        ∧ id node = id n
        ∧ dependencies node
          = (if decide (e = eid) then {[target]} ∪ dependencies n
             else dependencies n)
        ∧ dependents node
          = (if decide (e = target) then {[eid]} ∪ dependents n
             else dependents n)
  end.
Proof.
  destruct (nodes !! e) as [n|] eqn:Hn.
  - destruct (decide (target = e)) as [Ht|Ht], (decide (eid = e)) as [He|He];
      subst;
      repeat (rewrite lookup_alter_eq || rewrite lookup_alter_ne by done);
      rewrite Hn; simpl; eexists; (split; [done|]); simpl;
      repeat case_decide; done || congruence.
  - destruct (decide (target = e)) as [Ht|Ht], (decide (eid = e)) as [He|He];
      subst;
      repeat (rewrite lookup_alter_eq || rewrite lookup_alter_ne by done);
      by rewrite Hn.
Qed.

Lemma link_dependencies eid target (nodes : gmap string EntityNode) e d :
  eid ∈ dom nodes →
  adjacent dependencies
    (alter (add_dependent eid) target (alter (add_dependency target) eid nodes))
    e d
  ↔ adjacent dependencies nodes e d ∨ (e = eid ∧ d = target).
Proof.
  intros Hknown. unfold adjacent.
  pose proof (link_lookup eid target nodes e) as Hlook.
  destruct (nodes !! e) as [n|] eqn:Hn.
  - destruct Hlook as (node & -> & _ & Hdeps & _). split.
    + intros (node' & [= <-] & Hd). rewrite Hdeps in Hd.
      case_decide; [|left; by exists n].
      apply elem_of_union in Hd as [->%elem_of_singleton|Hd];
        [by right|left; by exists n].
    + intros [(n' & [= <-] & Hd)|[-> ->]]; exists node;
        (split; [done|]); rewrite Hdeps.
      * case_decide; [apply elem_of_union; by right|done].
      * rewrite decide_True by done. apply elem_of_union. left.
        by apply elem_of_singleton.
  - rewrite Hlook. split.
    + by intros (node' & ? & _).
    + intros [(node' & ? & _)|[-> _]]; [done|].
      apply elem_of_dom in Hknown as [? ?]. congruence.
Qed.

Lemma link_dependents eid target (nodes : gmap string EntityNode) d e :
  target ∈ dom nodes →
  adjacent dependents
    (alter (add_dependent eid) target (alter (add_dependency target) eid nodes))
    d e
  ↔ adjacent dependents nodes d e ∨ (d = target ∧ e = eid).
Proof.
  intros Hknown. unfold adjacent.
  pose proof (link_lookup eid target nodes d) as Hlook.
  destruct (nodes !! d) as [n|] eqn:Hn.
  - destruct Hlook as (node & -> & _ & _ & Hdeps). split.
    + intros (node' & [= <-] & Hd). rewrite Hdeps in Hd.
      case_decide; [|left; by exists n].
      apply elem_of_union in Hd as [->%elem_of_singleton|Hd];
        [by right|left; by exists n].
    + intros [(n' & [= <-] & Hd)|[-> ->]]; exists node;
        (split; [done|]); rewrite Hdeps.
      * case_decide; [apply elem_of_union; by right|done].
      * rewrite decide_True by done. apply elem_of_union. left.
        by apply elem_of_singleton.
  - rewrite Hlook. split.
    + by intros (node' & ? & _).
    + intros [(node' & ? & _)|[-> _]]; [done|].
      apply elem_of_dom in Hknown as [? ?]. congruence.
Qed.

Lemma link_mirrored eid rel nodes nodes' :
  mirrored nodes → link eid rel nodes = Ok nodes' →
  mirrored nodes' ∧ dom nodes' = dom nodes.
Proof.
  intros (Hid & Hmirror & Hdom). unfold link.
  destruct (targetEntity rel) as [target|]; simpl; [|done].
  case_decide as Hknown; intros [= <-]; [|done].
  destruct Hknown as [He Ht]. split; [|by rewrite !dom_alter_L].
  split_and!.
  - intros e node Hnode.
    pose proof (link_lookup eid target nodes e) as Hlook.
    destruct (nodes !! e) as [n|] eqn:Hn; [|congruence].
    destruct Hlook as (node' & Hnode' & Hid' & _).
    rewrite Hnode in Hnode'. injection Hnode' as <-.
    rewrite Hid'. by eapply Hid.
  - intros e d. rewrite link_dependencies, link_dependents by done.
    rewrite Hmirror. tauto.
  - intros e d. rewrite link_dependencies by done.
    rewrite !dom_alter_L. intros [Hed|[-> ->]]; [by eapply Hdom|done].
Qed.

Lemma create_node_ok entity nodes nodes' :
  create_node entity nodes = Ok nodes' →
  ∃ eid ename, entity_id entity = Some eid ∧ entity_name entity = Some ename
    ∧ nodes' = <[eid := mkEntityNode eid ename ∅ ∅]> nodes.
Proof.
  unfold create_node.
  destruct (entity_id entity) as [eid|]; simpl; [|done].
  destruct (entity_name entity) as [ename|]; simpl; [|done].
  intros [= <-]. eauto.
Qed.

Lemma create_nodes_spec entities nodes0 nodes :
  for_each create_node entities nodes0 = Ok nodes →
  (∀ e node, nodes0 !! e = Some node →
     id node = e ∧ dependencies node = ∅ ∧ dependents node = ∅) →
  (∀ e node, nodes !! e = Some node →
     id node = e ∧ dependencies node = ∅ ∧ dependents node = ∅)
  ∧ dom nodes
    = dom nodes0 ∪ list_to_set (omap entity_id entities).
Proof.
  revert nodes0. induction entities as [|entity entities IH];
    intros nodes0 Hrun Hfresh; simpl in Hrun.
  - injection Hrun as <-. split; [done|]. simpl. set_solver.
  - destruct (create_node entity nodes0) as [nodes1| |] eqn:Hcreate;
      simpl in Hrun; [|done..].
    apply create_node_ok in Hcreate as (eid & ename & Heid & _ & ->).
    apply IH in Hrun as [Hnodes Hdom].
    + split; [done|]. rewrite Hdom, dom_insert_L. simpl. rewrite Heid.
      simpl. set_solver.
    + intros e node. destruct (decide (eid = e)) as [->|Hne].
      * rewrite lookup_insert_eq. by intros [= <-].
      * rewrite lookup_insert_ne by done. apply Hfresh.
Qed.

Lemma build_from_specs_mirrored data nodes :
  build_from_specs data = Ok nodes → mirrored nodes.
Proof.
  unfold build_from_specs. destruct data as [entities|].
  2:{ intros [= <-]. split_and!; try done.
      - intros e d. unfold adjacent. split; intros (node & Hn & _); done.
      - intros e d (node & Hn & _). done. }
  destruct (for_each create_node entities ∅) as [nodes0| |] eqn:Hcreate;
    simpl; [|done..].
  apply create_nodes_spec in Hcreate as [Hfresh _]; [|done].
  apply (for_each_invariant mirrored).
  - intros entity n1 n2 _ Hm. unfold link_entity.
    destruct (entity_id entity) as [eid|]; simpl; [|done].
    apply (for_each_invariant mirrored); [|done].
    intros rel n3 n4 _ Hm' Hlink. by eapply link_mirrored.
  - split_and!.
    + intros e node Hn. by apply Hfresh in Hn as (? & _).
    + intros e d. unfold adjacent.
      split; intros (node & Hn & Hd); apply Hfresh in Hn as (_ & H1 & H2);
        rewrite ?H1, ?H2 in Hd; by apply elem_of_empty in Hd.
    + intros e d (node & Hn & Hd). apply Hfresh in Hn as (_ & H1 & _).
      rewrite H1 in Hd. by apply elem_of_empty in Hd.
Qed.
End build_facts.

Lemma for_each_ok_each {A S} (body : A → S → result S) xs st st' :
  for_each body xs st = Ok st' →
  ∀ x, x ∈ xs → ∃ s s', body x s = Ok s'.
Proof.
  revert st. induction xs as [|y xs IH]; intros st Hrun x Hx;
    [by apply elem_of_nil in Hx|].
  simpl in Hrun. destruct (body y st) as [st1| |] eqn:Hy; simpl in Hrun;
    try done.
  apply elem_of_cons in Hx as [->|Hx]; [eauto|by eapply IH].
Qed.

Lemma tc_flip {A} (R S : relation A) :
  (∀ a b, R a b ↔ S b a) → ∀ a b, tc R a b → tc S b a.
Proof.
  intros Hflip a b Hab. induction Hab as [a b Hab|a b c Hab _ IH].
  - by apply tc_once, Hflip.
  - eapply tc_r; [exact IH|]. by apply Hflip.
Qed.

Lemma tc_last {A} (R : relation A) a b : tc R a b → ∃ c, R c b.
Proof. induction 1; eauto. Qed.

Lemma tc_first {A} (R : relation A) a b : tc R a b → ∃ c, R a c.
Proof. destruct 1; eauto. Qed.

Lemma size_zero_empty (X : gset string) : size X = 0 ↔ X = ∅.
Proof.
  split.
  - intros Hsize. by apply leibniz_equiv, size_empty_inv.
  - intros ->. apply size_empty.
Qed.

Section index_queries.
Import DependencyGraph DependencyQueries.
Variable nodes : gmap string EntityNode.

(** X3. For an id the index knows, [get_dependencies] is exactly the set of
    other ids reached by one or more [dependencies] steps through nodes of
    the index, and [get_dependents] the same along [dependents]. *)
Theorem closure_is_reachability (entity x : string) :
  entity ∈ dom nodes →
  (x ∈ get_dependencies nodes entity
   ↔ x ≠ entity ∧ tc (adjacent dependencies nodes) entity x)
  ∧ (x ∈ get_dependents nodes entity
     ↔ x ≠ entity ∧ tc (adjacent dependents nodes) entity x).
Proof. intros Hknown. split; by apply closure_reach. Qed.

Lemma impact_size (entity : string) :
  size (get_impact nodes entity) = S (size (get_dependents nodes entity)).
Proof.
  unfold get_impact.
  rewrite (size_union {[entity]} (get_dependents nodes entity)).
  - by rewrite size_singleton.
  - intros x ->%elem_of_singleton. apply closure_not_self.
Qed.

(** X4. For an id the index knows, the risk tier counts the ids that depend
    on it, directly or not: none is low, one or two is medium, three or
    more is high. *)
Theorem risk_counts_dependents (entity : string) :
  entity ∈ dom nodes →
  (analyze_change_risk nodes entity = "low"
   ↔ get_dependents nodes entity = ∅)
  ∧ (analyze_change_risk nodes entity = "medium"
     ↔ 1 ≤ size (get_dependents nodes entity) ≤ 2)
  ∧ (analyze_change_risk nodes entity = "high"
     ↔ 3 ≤ size (get_dependents nodes entity)).
Proof.
  intros Hknown. unfold analyze_change_risk. rewrite decide_True by done.
  rewrite impact_size. rewrite <- size_zero_empty.
  repeat case_decide; split_and!; split; intros; try done; lia.
Qed.

Lemma conflicts_fold (impact : gset string) acc l :
  foldl (λ conflicts in_flight,
           if decide (impact ∩ get_impact nodes in_flight ≠ ∅)
           then conflicts ++ [in_flight] else conflicts) acc l
  = acc ++ filter (λ f, impact ∩ get_impact nodes f ≠ ∅) l.
Proof.
  revert acc. induction l as [|x l IH]; intros acc; simpl.
  - by rewrite app_nil_r.
  - rewrite IH, filter_cons. case_decide; [|done].
    by rewrite <- app_assoc.
Qed.

(** X5. [find_conflicts] keeps, in their order, exactly the in-flight ids
    that [can_parallelize] refuses to run beside the new change; an
    in-flight id equal to the new one is always among them. *)
Theorem find_conflicts_spec (entity : string) (in_flight : list string) :
  find_conflicts nodes entity in_flight
  = filter (λ f, can_parallelize nodes entity f = false) in_flight
  ∧ find_conflicts nodes entity in_flight `sublist_of` in_flight
  ∧ (entity ∈ in_flight → entity ∈ find_conflicts nodes entity in_flight).
Proof.
  assert (find_conflicts nodes entity in_flight
          = filter (λ f, can_parallelize nodes entity f = false) in_flight)
    as Heq.
  { unfold find_conflicts. simpl. rewrite conflicts_fold. simpl.
    apply filter_ext_in. intros f _. unfold can_parallelize.
    rewrite bool_decide_eq_false, size_zero_empty. done. }
  split_and!; [done| |].
  - rewrite Heq. apply sublist_filter.
  - intros Hin. rewrite Heq. apply list_elem_of_filter. split; [|done].
    apply bool_decide_eq_false. rewrite size_zero_empty.
    intros Hempty. apply (elem_of_empty (C := gset string) entity).
    rewrite <- Hempty. apply elem_of_intersection.
    split; apply impact_self.
Qed.

(** X6. [get_entity_info] answers [None] exactly for ids the index does not
    know; otherwise [total_impact] is one more than the number of
    [all_dependents], the id is in neither closure list, and no list
    repeats an id. *)
Theorem entity_info_spec (entity : string) :
  (get_entity_info nodes entity = None ↔ entity ∉ dom nodes)
  ∧ (∀ info, get_entity_info nodes entity = Some info →
       total_impact info = S (length (all_dependents info))
       ∧ (entity ∉ all_dependencies info) ∧ (entity ∉ all_dependents info)
       ∧ NoDup (all_dependencies info) ∧ NoDup (all_dependents info)
       ∧ NoDup (depends_on info) ∧ NoDup (depended_by info)
       ∧ (∀ x, x ∈ depends_on info → x ∈ all_dependencies info ∨ x = entity)).
Proof.
  unfold get_entity_info. split.
  - rewrite not_elem_of_dom. by destruct (nodes !! entity).
  - intros info. destruct (nodes !! entity) as [node|] eqn:Hnode; [|done].
    intros [= <-]. simpl. split_and!.
    + apply impact_size.
    + rewrite elem_of_elements. apply closure_not_self.
    + rewrite elem_of_elements. apply closure_not_self.
    + apply NoDup_elements.
    + apply NoDup_elements.
    + apply NoDup_elements.
    + apply NoDup_elements.
    + intros x Hx%elem_of_elements.
      destruct (decide (x = entity)) as [|Hne]; [by right|left].
      apply elem_of_elements, closure_reach; [by apply elem_of_dom|].
      split; [done|]. apply tc_once. by exists node.
Qed.
End index_queries.

Section built_index.
Import DependencyGraph DependencyQueries SpecShape.

(** X7. In an index that [build_from_specs] built, every node is filed under
    its own id, a dependency is recorded in both directions and only
    between known ids, and the two closures are converse: [x] is among the
    dependents of [y] exactly when [y] is among the dependencies of [x]. *)
Theorem built_index_mirrored data nodes :
  build_from_specs data = Ok nodes →
  mirrored nodes
  ∧ (∀ x y, x ∈ get_dependents nodes y ↔ y ∈ get_dependencies nodes x).
Proof.
  intros Hm%build_from_specs_mirrored. split; [done|].
  destruct Hm as (_ & Hmirror & Hdom).
  assert (∀ a b, tc (adjacent dependents nodes) a b
                 ↔ tc (adjacent dependencies nodes) b a) as Hflip.
  { intros a b. split; apply tc_flip; intros c d; by rewrite Hmirror. }
  assert (∀ a b, adjacent dependencies nodes a b → a ∈ dom nodes) as Hsrc.
  { intros a b (node & Hnode & _). by apply elem_of_dom. }
  intros x y.
  destruct (decide (y ∈ dom nodes)) as [Hy|Hy],
           (decide (x ∈ dom nodes)) as [Hx|Hx].
  - unfold get_dependents, get_dependencies, get_dependents_fuel,
      get_dependencies_fuel.
    rewrite !closure_reach, Hflip by done. naive_solver.
  - unfold get_dependents, get_dependencies, get_dependents_fuel,
      get_dependencies_fuel.
    rewrite closure_reach, Hflip, (closure_unknown _ _ x) by done.
    split; [|by intros ?%elem_of_empty].
    intros [_ (c & Hc)%tc_first]. destruct Hx. by eapply Hsrc.
  - unfold get_dependents, get_dependencies, get_dependents_fuel,
      get_dependencies_fuel.
    rewrite (closure_unknown _ _ y), (closure_reach _ _ x) by done.
    split; [by intros ?%elem_of_empty|].
    intros [_ (c & Hc)%tc_last]. destruct Hy. by eapply Hdom.
  - unfold get_dependents, get_dependencies, get_dependents_fuel,
      get_dependencies_fuel.
    rewrite !closure_unknown by done. done.
Qed.

Lemma link_entity_ok entity nodes nodes' :
  link_entity entity nodes = Ok nodes' →
  Forall (λ rel, is_Some (targetEntity rel)) (entity_relationships entity).
Proof.
  unfold link_entity. destruct (entity_id entity) as [eid|]; simpl; [|done].
  intros Hrun. apply Forall_forall. intros rel Hrel.
  destruct (for_each_ok_each _ _ _ _ Hrun rel Hrel) as (s & s' & Hlink).
  unfold link in Hlink. by destruct (targetEntity rel).
Qed.

(** X8. [build_from_specs] raises exactly when some entity record lacks
    [id] or [name] or some relationship lacks [targetEntity]; a missing
    file gives the empty index; and the index built has the entities' ids
    as its keys. *)
Theorem build_from_specs_readable (entities : list Entity) :
  ((∃ nodes, build_from_specs (Some entities) = Ok nodes)
   ↔ Forall readable entities)
  ∧ build_from_specs None = Ok ∅
  ∧ (∀ nodes, build_from_specs (Some entities) = Ok nodes →
       dom nodes = list_to_set (omap entity_id entities)).
Proof.
  split_and!; [split| |].
  - intros [nodes Hrun]. unfold build_from_specs in Hrun.
    destruct (for_each create_node entities ∅) as [nodes0| |] eqn:Hcreate;
      simpl in Hrun; [|done..].
    apply Forall_forall. intros entity Hentity.
    destruct (for_each_ok_each _ _ _ _ Hcreate entity Hentity)
      as (s & s' & (eid & ename & Hid & Hname & _)%create_node_ok).
    destruct (for_each_ok_each _ _ _ _ Hrun entity Hentity)
      as (t & t' & Hrels%link_entity_ok).
    by split_and!; [rewrite Hid|rewrite Hname|].
  - intros Hall. unfold build_from_specs.
    destruct (for_each_total (λ _, True) create_node entities)
      with (st := (∅ : gmap string EntityNode)) as (nodes0 & -> & _);
      [|done|].
    { intros entity st Hentity _.
      apply (proj1 (Forall_forall _ _) Hall) in Hentity
        as ([eid Hid] & [ename Hname] & _).
      unfold create_node. rewrite Hid, Hname. simpl. eauto. }
    simpl.
    destruct (for_each_total (λ _, True) link_entity entities)
      with (st := nodes0) as (nodes & -> & _); [|done|by eexists].
    intros entity st Hentity _.
    apply (proj1 (Forall_forall _ _) Hall) in Hentity
      as ([eid Hid] & _ & Hrels).
    unfold link_entity. rewrite Hid. simpl.
    apply (for_each_total (λ _, True)); [|done].
    intros rel st1 Hrel _.
    apply (proj1 (Forall_forall _ _) Hrels) in Hrel as [target Htarget].
    unfold link. rewrite Htarget. simpl. case_decide; eauto.
  - done.
  - intros nodes Hrun. unfold build_from_specs in Hrun.
    destruct (for_each create_node entities ∅) as [nodes0| |] eqn:Hcreate;
      simpl in Hrun; [|done..].
    apply create_nodes_spec in Hcreate as [_ Hdom]; [|done].
    rewrite dom_empty_L, (left_id_L ∅ (∪)) in Hdom. rewrite <- Hdom.
    eapply (for_each_invariant (λ n, dom n = dom nodes0));
      [|reflexivity|exact Hrun].
    intros entity n1 n2 _ Hn1. unfold link_entity.
    destruct (entity_id entity) as [eid|]; simpl; [|done].
    apply (for_each_invariant (λ n, dom n = dom nodes0)); [|done].
    intros rel n3 n4 _ Hn3. unfold link.
    destruct (targetEntity rel); simpl; [|done].
    case_decide; intros [= <-]; [|done]. by rewrite !dom_alter_L.
Qed.
End built_index.

Section graph_queries.
Import GraphBuilder GraphQueries.

(** X9. [get_node] answers [None] exactly when no node has the id, and
    otherwise the first node of the document that has it. *)
Theorem get_node_first (nodes : list Node) (id : string) :
  (get_node nodes id = None ↔ id ∉ node_id <$> nodes)
  ∧ (∀ node, get_node nodes id = Some node →
       ∃ before after, nodes = before ++ node :: after
         ∧ node_id node = id ∧ id ∉ node_id <$> before).
Proof.
  induction nodes as [|n nodes [IHnone IHsome]]; simpl.
  - split; [split; [intros _ ?%elem_of_nil|]; done|done].
  - destruct (decide (node_id n = id)) as [Heq|Hne].
    + split.
      * split; [done|]. intros Hout. destruct Hout. rewrite Heq. left.
      * intros node [= <-]. exists [], nodes.
        split_and!; [done..|]. by intros ?%elem_of_nil.
    + split.
      * rewrite IHnone, not_elem_of_cons. naive_solver.
      * intros node (before & after & -> & Hid & Hfresh)%IHsome.
        exists (n :: before), after. split_and!; [done..|].
        simpl. rewrite not_elem_of_cons. naive_solver.
Qed.

Lemma edges_fold id acc edges :
  foldl (λ '(incoming, outgoing) edge,
           let outgoing := if decide (source edge = id)
                           then outgoing ++ [edge] else outgoing in
           let incoming := if decide (target edge = id)
                           then incoming ++ [edge] else incoming in
           (incoming, outgoing)) acc edges
  = (acc.1 ++ filter (λ e, target e = id) edges,
     acc.2 ++ filter (λ e, source e = id) edges).
Proof.
  revert acc. induction edges as [|e edges IH]; intros [inc out]; simpl.
  - by rewrite !app_nil_r.
  - rewrite IH, !filter_cons. simpl.
    repeat case_decide; by rewrite <- ?app_assoc.
Qed.

(** X10. [get_edges_for_node] splits the edges at an id into those that end
    there and those that start there, in document order; an edge from the id
    to itself is in both lists; and the far ends of the two lists are the
    ids the first step of the upstream and of the downstream lineage
    appends. *)
Theorem edges_for_node_spec (edges : list Edge) (id : string) :
  get_edges_for_node edges id
  = (filter (λ e, target e = id) edges, filter (λ e, source e = id) edges)
  ∧ (∀ e, e ∈ edges → source e = id → target e = id →
       e ∈ (get_edges_for_node edges id).1
       ∧ e ∈ (get_edges_for_node edges id).2)
  ∧ source <$> (get_edges_for_node edges id).1
    = neighbours edges "upstream" id
  ∧ target <$> (get_edges_for_node edges id).2
    = neighbours edges "downstream" id.
Proof.
  assert (get_edges_for_node edges id
          = (filter (λ e, target e = id) edges,
             filter (λ e, source e = id) edges)) as Heq.
  { unfold get_edges_for_node. by rewrite edges_fold. }
  rewrite Heq. simpl. split_and!; [done| | |].
  - intros e He Hs Ht. by rewrite !list_elem_of_filter.
  - unfold neighbours, far_end. clear Heq.
    induction edges as [|e edges IH]; [done|].
    rewrite filter_cons. simpl in *.
    repeat case_decide; simpl;
      first [exact IH | f_equal; exact IH | exfalso; tauto].
  - unfold neighbours, far_end. clear Heq.
    induction edges as [|e edges IH]; [done|].
    rewrite filter_cons. simpl in *.
    repeat case_decide; simpl;
      first [exact IH | f_equal; exact IH | exfalso; tauto].
Qed.

(** X11. [load] reads the file once: whatever the first call returned, every
    later call returns it again, also when the file has changed or has
    appeared since; a first call that finds no file returns, and keeps,
    the empty document of version 2.0. *)
Theorem load_once (file file' : option Document) (cache : option Document) :
  let first := load file cache in
  load file' first.2 = (first.1, Some first.1)
  ∧ (cache = None → file = None →
       first.1 = mkDocument "2.0" [] []
       ∧ (load file' first.2).1 = mkDocument "2.0" [] []).
Proof.
  destruct cache as [graph|]; simpl; [done|].
  split; [done|]. by intros _ ->.
Qed.
End graph_queries.

Section stats_facts.
Import GraphBuilder GraphQueries.

Lemma total_count_key (counts : gmap string nat) key :
  total (count_key counts key) = S (total counts).
Proof.
  unfold total, count_key.
  assert (∀ (j1 j2 : string) (z1 z2 y : nat),
            z1 + (z2 + y) = z2 + (z1 + y)) as Hcomm by (intros; lia).
  destruct (counts !! key) as [n|] eqn:Hn; simpl.
  - rewrite (map_fold_delete_L _ _ key n counts);
      [|intros; apply Hcomm; exact ""|done].
    rewrite <- (insert_delete_eq counts).
    rewrite map_fold_insert_L;
      [lia|intros; apply Hcomm; exact ""|apply lookup_delete_eq].
  - rewrite map_fold_insert_L; [lia|intros; apply Hcomm; exact ""|done].
Qed.

Lemma lookup_count_key (counts : gmap string nat) key t :
  count_key counts key !! t
  = if decide (t = key) then Some (default 0 (counts !! t) + 1)
    else counts !! t.
Proof.
  unfold count_key. case_decide as Ht.
  - subst. by rewrite lookup_insert_eq.
  - by rewrite lookup_insert_ne.
Qed.

Lemma count_keys_spec (keys : list string) (counts : gmap string nat) :
  total (foldl count_key counts keys) = total counts + length keys
  ∧ ∀ t, foldl count_key counts keys !! t
         = if decide (t ∈ keys)
           then Some (default 0 (counts !! t)
                      + length (filter (λ k, k = t) keys))
           else counts !! t.
Proof.
  revert counts. induction keys as [|k keys IH]; intros counts; simpl.
  - split; [lia|]. intros t.
    by destruct (decide (t ∈ [])) as [?%elem_of_nil|].
  - destruct (IH (count_key counts k)) as [Htotal Hlookup]. split.
    + rewrite Htotal, total_count_key. lia.
    + intros t. rewrite Hlookup, lookup_count_key, filter_cons.
      destruct (decide (t = k)) as [->|Hne].
      * rewrite (decide_True (P := k ∈ k :: keys)) by left.
        rewrite (decide_True (P := k = k)) by done. simpl.
        case_decide as Hin; f_equal; [lia|].
        assert (filter (λ k0, k0 = k) keys = []) as ->.
        { clear -Hin. induction keys as [|k' keys IH]; [done|].
          rewrite filter_cons, decide_False, IH; [done|..].
          - intros ?. apply Hin. by right.
          - intros ->. apply Hin. left. }
        simpl. lia.
      * rewrite (decide_False (P := k = t)) by done.
        destruct (decide (t ∈ keys)) as [Hin|Hout].
        -- rewrite decide_True by by right. done.
        -- rewrite decide_False; [done|].
           by intros [->|?]%elem_of_cons.
Qed.

Lemma foldl_count_fmap {A} (key : A → string) (l : list A) counts :
  foldl (λ counts x, count_key counts (key x)) counts l
  = foldl count_key counts (key <$> l).
Proof.
  revert counts. induction l as [|x l IH]; intros counts; [done|].
  simpl. apply IH.
Qed.

(** X12. In the statistics the counts by type add up to the number of nodes
    and the counts by relation to the number of edges; a type has an entry
    exactly when some node has it, and the entry is the number of such
    nodes. *)
Theorem stats_add_up (graph : Document) :
  let stats := get_stats graph in
  total (nodes_by_type stats) = total_nodes stats
  ∧ total (edges_by_relation stats) = total_edges stats
  ∧ total_nodes stats = length (nodes graph)
  ∧ (∀ t, nodes_by_type stats !! t
          = if decide (t ∈ node_type <$> nodes graph)
            then Some (length (get_nodes_by_type (nodes graph) t))
            else None).
Proof.
  unfold get_stats. simpl.
  rewrite (foldl_count_fmap node_type), (foldl_count_fmap relation).
  destruct (count_keys_spec (node_type <$> nodes graph) ∅) as [Hn Hlookup].
  destruct (count_keys_spec (relation <$> edges graph) ∅) as [He _].
  simpl in *. split_and!.
  - rewrite Hn, length_fmap. unfold total. by rewrite map_fold_empty.
  - rewrite He, length_fmap. unfold total. by rewrite map_fold_empty.
  - done.
  - intros t. rewrite Hlookup, lookup_empty. simpl.
    case_decide; [|done]. f_equal. unfold get_nodes_by_type.
    clear. induction (nodes graph) as [|n l IH]; [done|].
    rewrite fmap_cons, !filter_cons. simpl.
    repeat case_decide; simpl; rewrite ?IH; done || congruence.
Qed.
End stats_facts.

Section search_facts.
Import GraphBuilder GraphQueries.

Lemma starts_with_refl s : starts_with s s = true.
Proof.
  induction s as [|a s IH]; [done|]. simpl.
  by rewrite bool_decide_eq_true_2.
Qed.

Lemma contains_refl s : contains s s = true.
Proof. destruct s; simpl; [done|]. by rewrite bool_decide_eq_true_2, starts_with_refl. Qed.

Lemma contains_empty s : contains "" s = true.
Proof. by destruct s. Qed.

Lemma lower_ascii_idempotent c :
  GraphCompiler.lower_ascii (GraphCompiler.lower_ascii c)
  = GraphCompiler.lower_ascii c.
Proof. by destruct c as [[] [] [] [] [] [] [] []]; vm_compute. Qed.

Lemma lower_idempotent s :
  GraphCompiler.lower (GraphCompiler.lower s) = GraphCompiler.lower s.
Proof.
  induction s as [|c s IH]; [done|]. simpl.
  by rewrite lower_ascii_idempotent, IH.
Qed.

(** X13. [search_nodes] keeps nodes in document order; the empty query
    returns every node; a node is found under its own id and under its own
    label, whatever the case of the letters typed; and the case of the
    query never matters. *)
Theorem search_nodes_spec (nodes : list Node) (query : string) :
  search_nodes nodes query `sublist_of` nodes
  ∧ search_nodes nodes "" = nodes
  ∧ search_nodes nodes (GraphCompiler.lower query) = search_nodes nodes query
  ∧ (∀ n, n ∈ nodes →
       (GraphCompiler.lower query = GraphCompiler.lower (node_id n)
        ∨ GraphCompiler.lower query = GraphCompiler.lower (label n)) →
       n ∈ search_nodes nodes query).
Proof.
  unfold search_nodes. split_and!.
  - apply sublist_filter.
  - apply filter_all. intros n _. left. apply contains_empty.
  - simpl. by rewrite lower_idempotent.
  - intros n Hn Hq. apply list_elem_of_filter. split; [|done].
    simpl. destruct Hq as [-> | ->]; [left|right]; apply contains_refl.
Qed.
End search_facts.

Lemma for_each_fmap {A B S} (f : A → B) (body : B → S → result S) xs st :
  for_each body (f <$> xs) st = for_each (λ x, body (f x)) xs st.
Proof.
  revert st. induction xs as [|x xs IH]; intros st; [done|].
  simpl. destruct (body (f x) st); simpl; auto.
Qed.

Lemma for_each_ext {A S} (body body' : A → S → result S) xs st :
  (∀ x s, body x s = body' x s) →
  for_each body xs st = for_each body' xs st.
Proof.
  intros Hext. revert st. induction xs as [|x xs IH]; intros st; [done|].
  simpl. rewrite Hext. destruct (body' x st); simpl; auto.
Qed.

Section lineage_duality.
Import GraphBuilder GraphQueries.
Variable edges : list Edge.

Lemma follow_flip rec current edge st :
  follow rec "upstream" current (flip edge) st
  = follow rec "downstream" current edge st.
Proof.
  unfold follow, flip. simpl.
  repeat case_decide; try done; exfalso; naive_solver.
Qed.

Lemma follow_unflip rec current edge st :
  follow rec "downstream" current (flip edge) st
  = follow rec "upstream" current edge st.
Proof.
  unfold follow, flip. simpl.
  repeat case_decide; try done; exfalso; naive_solver.
Qed.

Lemma follow_ext rec rec' direction current edge st :
  (∀ c s, rec c s = rec' c s) →
  follow rec direction current edge st
  = follow rec' direction current edge st.
Proof. intros Hext. unfold follow. by repeat case_decide. Qed.

Lemma traverse_flip fuel current st :
  traverse (flip <$> edges) "upstream" fuel current st
  = traverse edges "downstream" fuel current st
  ∧ traverse (flip <$> edges) "downstream" fuel current st
    = traverse edges "upstream" fuel current st.
Proof.
  revert current st. induction fuel as [|fuel IH]; intros current st; [done|].
  simpl. case_decide; [done|]. rewrite !for_each_fmap. split.
  - apply for_each_ext. intros edge s. rewrite follow_flip.
    apply follow_ext. intros c s'. apply IH.
  - apply for_each_ext. intros edge s. rewrite follow_unflip.
    apply follow_ext. intros c s'. apply IH.
Qed.

Lemma endpoints_flip : endpoints (flip <$> edges) = endpoints edges.
Proof.
  unfold endpoints. rewrite <- !list_fmap_compose.
  apply (comm_L (∪)).
Qed.

(** X14. Downstream lineage is upstream lineage in the graph with every edge
    read backwards, and conversely. *)
Theorem lineage_flip (node_id : string) :
  get_lineage (flip <$> edges) node_id "upstream"
  = get_lineage edges node_id "downstream"
  ∧ get_lineage (flip <$> edges) node_id "downstream"
    = get_lineage edges node_id "upstream".
Proof.
  unfold get_lineage, get_lineage_fuel, lineage_fuel.
  rewrite endpoints_flip.
  destruct (traverse_flip (size (endpoints edges) + 2) node_id (∅, []))
    as [-> ->].
  done.
Qed.

(** X15. The lineage of an id is empty when the direction is neither
    "upstream" nor "downstream", when no edge ends at the id (upstream) or
    starts at it (downstream); and it only ever lists ends of edges. *)
Theorem lineage_empty (node_id direction : string) :
  (direction ≠ "upstream" → direction ≠ "downstream" →
     get_lineage edges node_id direction = [])
  ∧ (node_id ∉ target <$> edges →
       get_lineage edges node_id "upstream" = [])
  ∧ (node_id ∉ source <$> edges →
       get_lineage edges node_id "downstream" = [])
  ∧ (∀ x, x ∈ get_lineage edges node_id direction → x ∈ endpoints edges).
Proof.
  assert (∀ d, (∀ x, ¬ step edges d node_id x) →
               get_lineage edges node_id d = []) as Hnone.
  { intros d Hstep.
    destruct (lineage_run edges d node_id)
      as (r & o & _ & -> & _ & _ & Hreach & _).
    destruct r as [|x r]; [done|].
    destruct (proj1 (Hreach x) ltac:(left)) as [? ? H|? y ? H _];
      by apply Hstep in H. }
  split_and!.
  - intros Hup Hdown. apply Hnone.
    intros x (edge & _ & [[? _]|[? _]]); done.
  - intros Hout. apply Hnone.
    intros x (edge & Hedge & [(_ & Ht & _)|[? _]]); [|done].
    apply Hout. rewrite <- Ht. apply list_elem_of_fmap. eauto.
  - intros Hout. apply Hnone.
    intros x (edge & Hedge & [[? _]|(_ & Hs & _)]); [done|].
    apply Hout. rewrite <- Hs. apply list_elem_of_fmap. eauto.
  - destruct (lineage_run edges direction node_id)
      as (r & o & _ & -> & _ & _ & Hreach & _).
    intros x (y & edge & Hedge & Hends)%Hreach%tc_last.
    destruct Hends as [(_ & _ & <-)|(_ & _ & <-)].
    + by apply endpoints_source.
    + by apply endpoints_target.
Qed.
End lineage_duality.

Lemma for_each_appends {A B} (P : B → Prop)
    (body : A → list B → result (list B)) xs :
  (∀ x acc acc', x ∈ xs → body x acc = Ok acc' →
     ∃ more, acc' = acc ++ more ∧ Forall P more) →
  ∀ acc acc', for_each body xs acc = Ok acc' →
    ∃ more, acc' = acc ++ more ∧ Forall P more.
Proof.
  induction xs as [|x xs IH]; intros Hbody acc acc' Hrun; simpl in Hrun.
  - injection Hrun as <-. exists []. by rewrite app_nil_r.
  - destruct (body x acc) as [acc1| |] eqn:Hx; simpl in Hrun; try done.
    destruct (Hbody x acc acc1) as (m1 & -> & Hm1); [left|done|].
    destruct (IH (λ y a a' Hy, Hbody y a a' (list_elem_of_further _ _ _ Hy))
                 _ _ Hrun) as (m2 & -> & Hm2).
    exists (m1 ++ m2). rewrite app_assoc. split; [done|].
    by apply Forall_app.
Qed.


Section compiled_graph.
Import GraphCompiler CompiledGraph.




Lemma field_edge_reference node_ids entity_id field acc acc' :
  (∃ a, entity_id = "asset.entity." +:+ a) →
  field_edge node_ids entity_id field acc = Ok acc' →
  ∃ more, acc' = acc ++ more ∧ Forall reference_edge more.
Proof.
  intros Hid. unfold field_edge.
  destruct (is_reference field);
    [|intros [= <-]; exists []; by rewrite app_nil_r].
  destruct (field_references field) as [ref|]; simpl; [|done].
  case_decide; [|intros [= <-]; exists []; by rewrite app_nil_r].
  destruct (field_name field); simpl; [|done].
  intros [= <-]. eexists. split; [done|].
  apply Forall_singleton. split_and!; simpl; eauto.
Qed.

Lemma flow_edge_flow node_ids wf_id rel verb item acc acc' :
  (rel = PRODUCES ∨ rel = CONSUMES) →
  (∃ a, wf_id = "wf.process." +:+ a) →
  flow_edge node_ids wf_id rel verb item acc = Ok acc' →
  ∃ more, acc' = acc ++ more ∧ Forall flow_edge_shape more.
Proof.
  intros Hrel Hid. unfold flow_edge.
  case_decide; intros [= <-]; [|exists []; by rewrite app_nil_r].
  eexists. split; [done|].
  apply Forall_singleton. split_and!; simpl; eauto.
Qed.

(** X17. The edges of a compiled document are its structural-reference edges
    followed by its workflow edges: first DEPENDS_ON edges from an entity
    node to an entity node, then PRODUCES and CONSUMES edges from a
    workflow node to an entity node.  No edge starts or ends at an
    algorithm node. *)
Theorem graph_edges_typed specs output_dir now graph paths :
  generate_graph specs output_dir now = Ok (graph, paths) →
  ∃ references flows,
    edges graph = references ++ flows
    ∧ Forall reference_edge references
    ∧ Forall flow_edge_shape flows.
Proof.
  intros (ns & _ & _ & Hedges & _)%generate_graph_ok.
  unfold build_edges in Hedges.
  destruct (for_each (entity_edges _) (entities specs) [])
    as [edges1| |] eqn:Hrun1; simpl in Hedges; [|done..].
  apply (for_each_appends reference_edge) in Hrun1 as (refs & -> & Hrefs).
  2:{ intros e acc acc' _. unfold entity_edges.
      destruct (entity_name e) as [name|]; simpl; [|done].
      apply (for_each_appends reference_edge).
      intros f a a' _. apply field_edge_reference. eauto. }
  apply (for_each_appends flow_edge_shape) in Hedges as (flows & -> & Hflows).
  2:{ intros w acc acc' _. unfold workflow_edges.
      destruct (for_each _ (workflow_produces w) acc) as [acc1| |] eqn:Hp;
        simpl; [|done..].
      apply (for_each_appends flow_edge_shape) in Hp as (m1 & -> & Hm1).
      2:{ intros item a a' _. apply flow_edge_flow; eauto. }
      intros Hc.
      apply (for_each_appends flow_edge_shape) in Hc as (m2 & -> & Hm2).
      2:{ intros item a a' _. apply flow_edge_flow; eauto. }
      exists (m1 ++ m2). rewrite app_assoc. split; [done|].
      by apply Forall_app. }
  exists refs, flows. by simpl in *.
Qed.
End compiled_graph.


Section compiled_outcome.
Import GraphCompiler CompiledGraph.








End compiled_outcome.

(** X2. [get_change_order] returns for every list of ids, repeated ids
    included, and for every index: no dictionary lookup fails, the loop
    stops within [2 * len(entities) + 1] iterations, so any larger bound
    gives the same answer, and the answer has as many entries as the
    input. *)
Theorem change_order_always_returns
    (nodes : gmap string DependencyGraph.EntityNode)
    (entities : list string) (fuel : nat) :
  DependencyGraph.change_order_fuel entities ≤ fuel →
  DependencyGraph.get_change_order_fuel nodes fuel entities
  = Ok (DependencyGraph.get_change_order nodes entities)
  ∧ length (DependencyGraph.get_change_order nodes entities)
    = length entities.
Proof.
  intros Hfuel. split; [by apply get_change_order_total|].
  pose proof (get_change_order_total nodes entities _ (le_n _)) as Hrun.
  unfold DependencyGraph.get_change_order_fuel in Hrun.
  destruct (for_each (DependencyGraph.count_entity nodes entities) _ _)
    as [st| |]; simpl in Hrun; [|done..].
  destruct (for_each _ entities []) as [queue| |]; simpl in Hrun; [|done..].
  destruct (DependencyGraph.kahn _ _ _ _ _) as [out| |]; simpl in Hrun;
    [|done..].
  case_decide as Hlen; injection Hrun as <-; [done|].
  by destruct (decide (length out = length entities)).
Qed.

Lemma change_order_always_returns_witness :
  DependencyGraph.get_change_order_fuel
    (Examples.index_of Examples.a_then_b) 9 ["b"; "b"; "a"]
  = Ok (DependencyGraph.get_change_order
          (Examples.index_of Examples.a_then_b) ["b"; "b"; "a"])
  ∧ length (DependencyGraph.get_change_order
              (Examples.index_of Examples.a_then_b) ["b"; "b"; "a"]) = 3.
Proof.
  apply (change_order_always_returns
           (Examples.index_of Examples.a_then_b) ["b"; "b"; "a"] 9).
  vm_compute. lia.
Defined.

Lemma closure_is_reachability_witness :
  tc (DependencyQueries.adjacent DependencyGraph.dependencies
        (Examples.index_of Examples.chain4)) "d" "a"
  ∧ ¬ tc (DependencyQueries.adjacent DependencyGraph.dependents
            (Examples.index_of Examples.chain4)) "d" "a".
Proof.
  assert ("d" ∈ dom (Examples.index_of Examples.chain4)) as Hknown
    by (apply (bool_decide_unpack _); by vm_compute).
  destruct (closure_is_reachability
              (Examples.index_of Examples.chain4) "d" "a" Hknown)
    as [Hdown Hup].
  split.
  - apply Hdown. apply (bool_decide_unpack _). by vm_compute.
  - intros Hreach.
    assert ("a" ∈ DependencyGraph.get_dependents
                    (Examples.index_of Examples.chain4) "d") as Hin
      by (apply Hup; split; [done|exact Hreach]).
    revert Hin. apply (bool_decide_unpack _). by vm_compute.
Defined.

Lemma risk_counts_dependents_witness :
  DependencyGraph.analyze_change_risk
    (Examples.index_of Examples.chain4) "d" = "low"
  ∧ DependencyGraph.analyze_change_risk
      (Examples.index_of Examples.chain4) "b" = "medium"
  ∧ DependencyGraph.analyze_change_risk
      (Examples.index_of Examples.chain4) "a" = "high".
Proof.
  split_and!.
  - refine (proj2 (proj1 (risk_counts_dependents
                     (Examples.index_of Examples.chain4) "d" _)) _).
    + apply (bool_decide_unpack _). by vm_compute.
    + by vm_compute.
  - refine (proj2 (proj1 (proj2 (risk_counts_dependents
                     (Examples.index_of Examples.chain4) "b" _))) _).
    + apply (bool_decide_unpack _). by vm_compute.
    + vm_compute. lia.
  - refine (proj2 (proj2 (proj2 (risk_counts_dependents
                     (Examples.index_of Examples.chain4) "a" _))) _).
    + apply (bool_decide_unpack _). by vm_compute.
    + vm_compute. lia.
Defined.

Lemma built_index_mirrored_witness :
  DependencyQueries.mirrored (Examples.index_of Examples.chain4)
  ∧ (∀ x y, x ∈ DependencyGraph.get_dependents
                  (Examples.index_of Examples.chain4) y
            ↔ y ∈ DependencyGraph.get_dependencies
                    (Examples.index_of Examples.chain4) x).
Proof.
  apply (built_index_mirrored (Some Examples.chain4)
           (Examples.index_of Examples.chain4)).
  by vm_compute.
Defined.


Lemma graph_edges_typed_witness :
  ∃ graph paths references flows,
    GraphCompiler.generate_graph Examples.shop_specs "out" "2026-01-01T00:00:00"
    = Ok (graph, paths)
    ∧ GraphCompiler.edges graph = references ++ flows
    ∧ Forall CompiledGraph.reference_edge references
    ∧ Forall CompiledGraph.flow_edge_shape flows.
Proof.
  destruct (graph_edges_typed Examples.shop_specs "out"
              "2026-01-01T00:00:00" _ _ eq_refl)
    as (references & flows & Hedges & Hrefs & Hflows).
  eexists _, _, references, flows. split; [reflexivity|].
  split_and!; [exact Hedges|exact Hrefs|exact Hflows].
Defined.

